(** * clingoDL: the difference-logic consistency graph and its propagator

    A shallow embedding of [src/main.cpp]: the edge table built by
    [add_edge_atom], the incremental negative-cycle detection of
    [DifferenceLogicGraph::add_edge], and the trail handling of
    [DifferenceLogicPropagator].

    Conventions of the embedding.
    - C++ [int] values that carry arithmetic (weights, potentials, gammas,
      literals) are integers of [Z]. Signed overflow is undefined behaviour
      in C++ and is outside the model; [std::numeric_limits<int>::min()]
      itself is a value and is modelled ([undefined_potential]).
    - Indices of nodes and edges are natural numbers: the source produces
      them from [size()] of a vector.
    - [nodes_[i]] and [edges_[i]] are unchecked in C++. The model reads a
      default record and ignores a write out of range; [wf_graph] below
      describes the states in which every access is in range.
    - An [assert] that fails ends the call with [AssertFail].
    - [std::priority_queue] and [std::unordered_multimap] are taken as
      interfaces ([PriorityQueue], [UnorderedMultimap]). *)

From stdpp Require Import list gmap strings.
From Stdlib Require Import ZArith Lia.

(** ** Data model *)

Definition literal_t := Z.

Record Edge := {
  from : nat;
  to : nat;
  weight : Z;
  lit : literal_t
}.

Definition undefined_potential : Z := (- 2 ^ 31)%Z.

Record DifferenceLogicNode := {
  outgoing : list nat;
  potential : Z;
  last_edge : nat;
  gamma : Z;
  changed : bool
}.

(** The default member initialisers of [DifferenceLogicNode]. *)
Definition new_node : DifferenceLogicNode :=
  {| outgoing := []; potential := undefined_potential; last_edge := 0;
     gamma := 0%Z; changed := false |}.

Record DifferenceLogicNodeUpdate := {
  node_idx : nat;
  upd_gamma : Z
}.

#[global] Instance Edge_inhabited : Inhabited Edge :=
  populate {| from := 0; to := 0; weight := 0%Z; lit := 0%Z |}.
#[global] Instance DifferenceLogicNode_inhabited : Inhabited DifferenceLogicNode :=
  populate new_node.

(** Assignments to single fields of a node record. *)
Definition set_potential (p : Z) (n : DifferenceLogicNode) : DifferenceLogicNode :=
  {| outgoing := outgoing n; potential := p; last_edge := last_edge n;
     gamma := gamma n; changed := changed n |}.
Definition set_last_edge (e : nat) (n : DifferenceLogicNode) : DifferenceLogicNode :=
  {| outgoing := outgoing n; potential := potential n; last_edge := e;
     gamma := gamma n; changed := changed n |}.
Definition set_gamma (g : Z) (n : DifferenceLogicNode) : DifferenceLogicNode :=
  {| outgoing := outgoing n; potential := potential n; last_edge := last_edge n;
     gamma := g; changed := changed n |}.
Definition set_changed (b : bool) (n : DifferenceLogicNode) : DifferenceLogicNode :=
  {| outgoing := outgoing n; potential := potential n; last_edge := last_edge n;
     gamma := gamma n; changed := b |}.
Definition push_outgoing (e : nat) (n : DifferenceLogicNode) : DifferenceLogicNode :=
  {| outgoing := outgoing n ++ [e]; potential := potential n;
     last_edge := last_edge n; gamma := gamma n; changed := changed n |}.

(** Outcome of a call: a value, a failed [assert], or a loop that does not
    end within the fuel the model gives it. *)
Inductive result (A : Type) : Type :=
  | Ok (a : A)
  | AssertFail
  | Diverge.
Arguments Ok {A} a.
Arguments AssertFail {A}.
Arguments Diverge {A}.

#[global] Instance result_bind : MBind result := λ A B k m,
  match m with
  | Ok a => k a
  | AssertFail => AssertFail
  | Diverge => Diverge
  end.

(** ** The priority queue [gamma_]

    [std::priority_queue<DifferenceLogicNodeUpdate>] with
    [operator<] comparing [a.gamma > b.gamma]: [top] is an entry of least
    gamma. Which one among equals is up to the heap; [add_edge] calls
    [pop] after it has pushed, and relies on [push] leaving the top in
    place when the new entry is not below it ([std::push_heap] moves the
    new entry up only past entries that compare less). *)
Class PriorityQueue := {
  pq : Type;
  pq_new : pq;
  pq_push : DifferenceLogicNodeUpdate → pq → pq;
  pq_top : pq → option DifferenceLogicNodeUpdate;
  pq_pop : pq → pq;
  pq_items : pq → list DifferenceLogicNodeUpdate
}.

(** What the C++ standard promises of a priority queue, over the bag of
    its entries. *)
Class PriorityQueueLaws (PQ : PriorityQueue) : Prop := {
  pq_new_items : pq_items pq_new = [];
  pq_push_items : ∀ x q, pq_items (pq_push x q) ≡ₚ x :: pq_items q;
  pq_top_None : ∀ q, pq_top q = None ↔ pq_items q = [];
  pq_top_pop : ∀ q x, pq_top q = Some x → pq_items q ≡ₚ x :: pq_items (pq_pop q);
  pq_top_min : ∀ q x y,
    pq_top q = Some x → y ∈ pq_items q → (upd_gamma x <= upd_gamma y)%Z;
  pq_top_push : ∀ q x y,
    pq_top q = Some x → (upd_gamma x <= upd_gamma y)%Z →
    pq_top (pq_push y q) = Some x
}.

(** A queue kept as a plain list in the order of the pushes; [top] is the
    oldest of the least entries. *)
Fixpoint list_top (q : list DifferenceLogicNodeUpdate)
  : option DifferenceLogicNodeUpdate :=
  match q with
  | [] => None
  | x :: q' =>
    match list_top q' with
    | None => Some x
    | Some y => if (upd_gamma x <=? upd_gamma y)%Z then Some x else Some y
    end
  end.

Fixpoint list_pop (q : list DifferenceLogicNodeUpdate)
  : list DifferenceLogicNodeUpdate :=
  match q with
  | [] => []
  | x :: q' =>
    match list_top q' with
    | None => q'
    | Some y => if (upd_gamma x <=? upd_gamma y)%Z then q' else x :: list_pop q'
    end
  end.

Definition list_pq : PriorityQueue :=
  {| pq := list DifferenceLogicNodeUpdate;
     pq_new := [];
     pq_push := λ x q, q ++ [x];
     pq_top := list_top;
     pq_pop := list_pop;
     pq_items := λ q, q |}.

(** ** The consistency graph *)

(** [ensure_index]: [resize(index + 1)] when the index is not yet there. *)
Definition ensure_index (c : list DifferenceLogicNode) (index : nat)
  : list DifferenceLogicNode :=
  if length c <=? index then c ++ replicate (S index - length c) new_node else c.

Section Graph.
Context {PQ : PriorityQueue}.
Variable edges_ : list Edge.

Record DifferenceLogicGraph := {
  gamma_ : pq;
  changed_ : list nat;
  nodes_ : list DifferenceLogicNode
}.

Definition new_graph : DifferenceLogicGraph :=
  {| gamma_ := pq_new; changed_ := []; nodes_ := [] |}.

Definition empty (g : DifferenceLogicGraph) : bool :=
  match nodes_ g with [] => true | _ => false end.

Definition node_value_defined (g : DifferenceLogicGraph) (idx : nat) : bool :=
  negb (potential (nodes_ g !!! idx) =? undefined_potential)%Z.

Definition node_value (g : DifferenceLogicGraph) (idx : nat) : Z :=
  (- potential (nodes_ g !!! idx))%Z.

Definition reset (g : DifferenceLogicGraph) : DifferenceLogicGraph :=
  {| gamma_ := gamma_ g; changed_ := changed_ g; nodes_ := [] |}.

(** [if (x.potential == undefined_potential) x.potential = 0;] *)
Definition define_potential (i : nat) (ns : list DifferenceLogicNode)
  : list DifferenceLogicNode :=
  if (potential (ns !!! i) =? undefined_potential)%Z
  then alter (set_potential 0) i ns else ns.

(** Lines 157-165: both end nodes of the edge exist and have a
    potential. *)
Definition init_nodes (uv_idx : nat) (ns : list DifferenceLogicNode)
  : list DifferenceLogicNode :=
  let uv := edges_ !!! uv_idx in
  define_potential (to uv)
    (define_potential (from uv)
       (ensure_index ns (Nat.max (from uv) (to uv)))).

(** Lines 154-170: the nodes of the edge are initialised, [v.gamma] is
    computed and, when negative, queued. *)
Definition start_edge (uv_idx : nat) (g : DifferenceLogicGraph)
  : DifferenceLogicGraph :=
  let uv := edges_ !!! uv_idx in
  let ns := init_nodes uv_idx (nodes_ g) in
  let gm := (potential (ns !!! from uv) + weight uv
             - potential (ns !!! to uv))%Z in
  let ns := alter (set_gamma gm) (to uv) ns in
  if (gm <? 0)%Z then
    {| gamma_ := pq_push {| node_idx := to uv; upd_gamma := gm |} (gamma_ g);
       changed_ := changed_ g;
       nodes_ := alter (set_last_edge uv_idx) (to uv) ns |}
  else
    {| gamma_ := gamma_ g; changed_ := changed_ g; nodes_ := ns |}.

(** Lines 189-191: [t.gamma = gamma; gamma_.push({st.to, t.gamma});
    t.last_edge = st_idx;] *)
Definition update_gamma (t_idx st_idx : nat) (gm : Z)
    (g : DifferenceLogicGraph) : DifferenceLogicGraph :=
  {| gamma_ := pq_push {| node_idx := t_idx; upd_gamma := gm |} (gamma_ g);
     changed_ := changed_ g;
     nodes_ := alter (λ n, set_last_edge st_idx (set_gamma gm n))
                     t_idx (nodes_ g) |}.

(** Lines 183-193: the body of the loop over [s.outgoing]. *)
Definition relax_edge (s_idx st_idx : nat) (g : DifferenceLogicGraph)
  : result DifferenceLogicGraph :=
  if negb (st_idx <? length edges_) then AssertFail else
  let st := edges_ !!! st_idx in
  let t := nodes_ g !!! to st in
  if changed t then Ok g else
  let gm := (potential (nodes_ g !!! s_idx) + weight st - potential t)%Z in
  if (gm <? gamma t)%Z then Ok (update_gamma (to st) st_idx gm g) else Ok g.

Fixpoint relax_outgoing (s_idx : nat) (out : list nat)
    (g : DifferenceLogicGraph) : result DifferenceLogicGraph :=
  match out with
  | [] => Ok g
  | st_idx :: rest =>
    g' ← relax_edge s_idx st_idx g ; relax_outgoing s_idx rest g'
  end.

(** Lines 178-181: [s.potential += s.gamma; s.gamma = 0;
    s.changed = true; changed_.emplace_back(s_idx);] *)
Definition mark_changed (s_idx : nat) (g : DifferenceLogicGraph)
  : DifferenceLogicGraph :=
  {| gamma_ := gamma_ g;
     changed_ := changed_ g ++ [s_idx];
     nodes_ := alter (λ n, set_changed true (set_gamma 0
                        (set_potential (potential n + gamma n) n)))
                     s_idx (nodes_ g) |}.

(** Line 196: [gamma_.pop();] *)
Definition pop (g : DifferenceLogicGraph) : DifferenceLogicGraph :=
  {| gamma_ := pq_pop (gamma_ g); changed_ := changed_ g;
     nodes_ := nodes_ g |}.

(** Lines 174-196: one turn of the detection loop. *)
Definition visit_top (g : DifferenceLogicGraph) : result DifferenceLogicGraph :=
  match pq_top (gamma_ g) with
  | None => Ok g
  | Some top =>
    let s_idx := node_idx top in
    let s := nodes_ g !!! s_idx in
    g1 ← (if changed s then Ok g else
          if negb (gamma s =? upd_gamma top)%Z then AssertFail else
          relax_outgoing s_idx (outgoing s) (mark_changed s_idx g)) ;
    Ok (pop g1)
  end.

(** Line 173: [while (!gamma_.empty() && u.gamma == 0)]. *)
Fixpoint detect (fuel : nat) (u_idx : nat) (g : DifferenceLogicGraph)
  : result DifferenceLogicGraph :=
  match pq_top (gamma_ g) with
  | None => Ok g
  | Some _ =>
    if negb (gamma (nodes_ g !!! u_idx) =? 0)%Z then Ok g else
    match fuel with
    | 0 => Diverge
    | S fuel' => g' ← visit_top g ; detect fuel' u_idx g'
    end
  end.

(** An upper bound on the turns of the detection loop: every turn pops
    an entry, and only the first visit of a node pushes entries, one per
    outgoing edge at most. *)
Definition work (g : DifferenceLogicGraph) : nat :=
  length (pq_items (gamma_ g))
  + sum_list_with (λ n, if changed n then 0 else S (length (outgoing n)))
                  (nodes_ g).

(** Lines 204-208: the walk back along [last_edge]. *)
Fixpoint gather_cycle (fuel : nat) (ns : list DifferenceLogicNode)
    (v_idx next_idx : nat) (neg_cycle : list nat) : result (list nat) :=
  if v_idx =? next_idx then Ok neg_cycle else
  match fuel with
  | 0 => Diverge
  | S fuel' =>
    let next := ns !!! next_idx in
    gather_cycle fuel' ns v_idx (from (edges_ !!! last_edge next))
                 (neg_cycle ++ [last_edge next])
  end.

(** Lines 217-220: the queue is emptied, each entry's node gets gamma 0. *)
Fixpoint drain (fuel : nat) (q : pq) (ns : list DifferenceLogicNode)
  : pq * list DifferenceLogicNode :=
  match fuel with
  | 0 => (q, ns)
  | S fuel' =>
    match pq_top q with
    | None => (q, ns)
    | Some top =>
      drain fuel' (pq_pop q) (alter (set_gamma 0) (node_idx top) ns)
    end
  end.

(** Lines 221-223. *)
Definition clear_changed (xs : list nat) (ns : list DifferenceLogicNode)
  : list DifferenceLogicNode :=
  fold_left (λ ns x, alter (set_changed false) x ns) xs ns.

(** Lines 216-224: [v.gamma = 0], the queue is drained and the changed
    flags are reset. *)
Definition cleanup (v_idx : nat) (g : DifferenceLogicGraph)
  : DifferenceLogicGraph :=
  let ns := alter (set_gamma 0) v_idx (nodes_ g) in
  let d := drain (length (pq_items (gamma_ g))) (gamma_ g) ns in
  {| gamma_ := d.1; changed_ := [];
     nodes_ := clear_changed (changed_ g) d.2 |}.

(** Line 212: [u.outgoing.emplace_back(uv_idx);] *)
Definition install (uv_idx : nat) (g : DifferenceLogicGraph)
  : DifferenceLogicGraph :=
  {| gamma_ := gamma_ g; changed_ := changed_ g;
     nodes_ := alter (push_outgoing uv_idx) (from (edges_ !!! uv_idx))
                     (nodes_ g) |}.

Definition add_edge (uv_idx : nat) (g : DifferenceLogicGraph)
  : result (list nat * DifferenceLogicGraph) :=
  let uv := edges_ !!! uv_idx in
  let g0 := start_edge uv_idx g in
  g1 ← detect (work g0) (from uv) g0 ;
  if (gamma (nodes_ g1 !!! from uv) <? 0)%Z then
    let e := last_edge (nodes_ g1 !!! to uv) in
    neg_cycle ← gather_cycle (length (changed_ g1)) (nodes_ g1) (to uv)
                             (from (edges_ !!! e)) [e] ;
    Ok (neg_cycle, cleanup (to uv) g1)
  else
    Ok ([], cleanup (to uv) (install uv_idx g1)).

End Graph.

Arguments gamma_ {PQ} _.
Arguments changed_ {PQ} _.
Arguments nodes_ {PQ} _.

(** ** Quiescence: the state of a graph between two calls of [add_edge] *)

Section Quiescence.
Context {PQ : PriorityQueue}.
Variable edges_ : list Edge.

(** [P s e] for every edge index [e] in the outgoing list of every node
    [s]. *)
Definition all_outgoing (P : nat → nat → bool)
    (ns : list DifferenceLogicNode) : bool :=
  forallb (λ s, forallb (P s) (outgoing (ns !!! s))) (seq 0 (length ns)).

(** An active edge is an edge of the table, it is kept by the node it
    leaves, and the node it enters exists. *)
Definition wf_graph (g : DifferenceLogicGraph) : bool :=
  all_outgoing (λ s e, (e <? length edges_) && (from (edges_ !!! e) =? s)
                       && (to (edges_ !!! e) <? length (nodes_ g)))
               (nodes_ g).

(** Invariants 2 and 3 of the data model, and an empty [changed_]. *)
Definition scratch_clean (g : DifferenceLogicGraph) : bool :=
  match pq_top (gamma_ g) with None => true | Some _ => false end
  && match changed_ g with [] => true | _ :: _ => false end
  && forallb (λ n, (gamma n =? 0)%Z && negb (changed n)) (nodes_ g).

Definition reduced_weight (ns : list DifferenceLogicNode) (e : nat) : Z :=
  (potential (ns !!! from (edges_ !!! e)) + weight (edges_ !!! e)
   - potential (ns !!! to (edges_ !!! e)))%Z.

(** Invariant 1 of the data model. *)
Definition feasible (g : DifferenceLogicGraph) : bool :=
  all_outgoing (λ _ e, (0 <=? reduced_weight (nodes_ g) e)%Z) (nodes_ g).

(** Both ends of every active edge have a potential. *)
Definition active_defined (g : DifferenceLogicGraph) : bool :=
  all_outgoing (λ _ e, node_value_defined g (from (edges_ !!! e))
                       && node_value_defined g (to (edges_ !!! e)))
               (nodes_ g).

(** The edge [e] is active: some node holds it in its outgoing list. *)
Definition active (g : DifferenceLogicGraph) (e : nat) : Prop :=
  ∃ s, s < length (nodes_ g) ∧ e ∈ outgoing (nodes_ g !!! s).

Definition cycle_weight (es : list nat) : Z :=
  foldr (λ e acc, (weight (edges_ !!! e) + acc)%Z) 0%Z es.

End Quiescence.

(** ** The invariant of the detection loop *)

Section ScanInvariant.
Context {PQ : PriorityQueue}.
Variable edges_ : list Edge.
Variable uv_idx : nat.
(** The node records when the loop is entered, before [v.gamma] is set. *)
Variable ns0 : list DifferenceLogicNode.

(** [t] was reached through its [last_edge], from a node whose potential
    is final, and [p] is the potential this gives to [t]. The edge is
    the new edge [uv] for [v], and an active edge of a changed node
    otherwise. *)
Definition reached_by (g : DifferenceLogicGraph) (t : nat) (p : Z)
    (earlier : list nat) : Prop :=
  let e := last_edge (nodes_ g !!! t) in
  e < length edges_ ∧ to (edges_ !!! e) = t ∧
  p = (potential (nodes_ g !!! from (edges_ !!! e)) + weight (edges_ !!! e))%Z ∧
  ((e = uv_idx ∧ t = to (edges_ !!! uv_idx)) ∨
   (from (edges_ !!! e) ∈ earlier ∧
    e ∈ outgoing (ns0 !!! from (edges_ !!! e)))).

Record scan_inv (g : DifferenceLogicGraph) : Prop := {
  si_len : length (nodes_ g) = length ns0;
  si_out : ∀ t, outgoing (nodes_ g !!! t) = outgoing (ns0 !!! t);
  si_chg : ∀ t, changed (nodes_ g !!! t) = true ↔ t ∈ changed_ g;
  si_pot : ∀ t, changed (nodes_ g !!! t) = false →
    potential (nodes_ g !!! t) = potential (ns0 !!! t);
  si_gam0 : ∀ t, changed (nodes_ g !!! t) = true →
    gamma (nodes_ g !!! t) = 0%Z;
  si_items : ∀ x, x ∈ pq_items (gamma_ g) →
    node_idx x < length ns0 ∧ (upd_gamma x < 0)%Z ∧
    (changed (nodes_ g !!! node_idx x) = true ∨
     (gamma (nodes_ g !!! node_idx x) <= upd_gamma x)%Z);
  si_gam : ∀ t, gamma (nodes_ g !!! t) ≠ 0%Z →
    (t = to (edges_ !!! uv_idx) ∧ (0 < gamma (nodes_ g !!! t))%Z) ∨
    ((gamma (nodes_ g !!! t) < 0)%Z ∧
     {| node_idx := t; upd_gamma := gamma (nodes_ g !!! t) |}
       ∈ pq_items (gamma_ g));
  si_pred : ∀ t, (gamma (nodes_ g !!! t) < 0)%Z →
    reached_by g t (potential (ns0 !!! t) + gamma (nodes_ g !!! t))%Z
               (changed_ g);
  si_chain : ∀ i t, changed_ g !! i = Some t →
    reached_by g t (potential (nodes_ g !!! t)) (take i (changed_ g));
  si_first : changed_ g = [] →
    ∀ x, x ∈ pq_items (gamma_ g) → node_idx x = to (edges_ !!! uv_idx);
  si_start : changed_ g = [] →
    gamma (nodes_ g !!! to (edges_ !!! uv_idx))
    = (potential (ns0 !!! from (edges_ !!! uv_idx))
       + weight (edges_ !!! uv_idx)
       - potential (ns0 !!! to (edges_ !!! uv_idx)))%Z;
  si_v : changed_ g ≠ [] → to (edges_ !!! uv_idx) ∈ changed_ g;
  si_root : (gamma (nodes_ g !!! to (edges_ !!! uv_idx)) < 0)%Z ∨
            to (edges_ !!! uv_idx) ∈ changed_ g →
    last_edge (nodes_ g !!! to (edges_ !!! uv_idx)) = uv_idx;
  si_u : from (edges_ !!! uv_idx) ∉ changed_ g
}.

End ScanInvariant.

(** ** The invariant of the relaxation *)

Section RelaxInvariant.
Context {PQ : PriorityQueue}.
Variable edges_ : list Edge.
Variable uv_idx : nat.
Variable ns0 : list DifferenceLogicNode.

(** [v.gamma] as line 166 computes it. *)
Definition first_gamma : Z :=
  (potential (ns0 !!! from (edges_ !!! uv_idx)) + weight (edges_ !!! uv_idx)
   - potential (ns0 !!! to (edges_ !!! uv_idx)))%Z.

(** The edge [e] of the changed node [s] has been looked at: its reduced
    weight is not negative when its target is changed too, and the
    gamma of a target that is not changed accounts for it. *)
Definition relaxed (g : DifferenceLogicGraph) (s e : nat) : Prop :=
  let t := to (edges_ !!! e) in
  if changed (nodes_ g !!! t)
  then (0 <= potential (nodes_ g !!! s) + weight (edges_ !!! e)
             - potential (nodes_ g !!! t))%Z
  else (gamma (nodes_ g !!! t)
        <= potential (nodes_ g !!! s) + weight (edges_ !!! e)
           - potential (ns0 !!! t))%Z.

(** Potentials only go down, by no more than [first_gamma], and in the
    order of the queue; every edge of a changed node is relaxed, except
    the edges [todo] of the node [cur] that is being visited. *)
Record relax_inv (cur : nat) (todo : list nat) (g : DifferenceLogicGraph)
  : Prop := {
  ri_neg : ∀ t, t ∈ changed_ g →
    (potential (nodes_ g !!! t) < potential (ns0 !!! t))%Z;
  ri_low : ∀ t, t ∈ changed_ g →
    (first_gamma <= potential (nodes_ g !!! t) - potential (ns0 !!! t))%Z;
  ri_mono : ∀ t y, t ∈ changed_ g → y ∈ pq_items (gamma_ g) →
    (potential (nodes_ g !!! t) - potential (ns0 !!! t) <= upd_gamma y)%Z;
  ri_low_items : ∀ y, y ∈ pq_items (gamma_ g) →
    (first_gamma <= upd_gamma y)%Z;
  ri_done : ∀ s e, s ∈ changed_ g → e ∈ outgoing (ns0 !!! s) →
    (s = cur ∧ e ∈ todo) ∨ relaxed g s e
}.

End RelaxInvariant.

(** ** Walks and cycles of edges *)

Section Cycles.
Variable edges_ : list Edge.

(** [path] leads from [x] back to [v]: each edge enters the node the
    edge before it leaves. *)
Fixpoint back_walk (v x : nat) (path : list nat) : Prop :=
  match path with
  | [] => x = v
  | e :: rest =>
    e < length edges_ ∧ to (edges_ !!! e) = x ∧
    back_walk v (from (edges_ !!! e)) rest
  end.

(** The edge at position [i] and the one after it, the first edge coming
    after the last. *)
Definition next_in_cycle (es : list nat) (i : nat) : nat :=
  es !!! (S i mod length es).

(** Walked in the order of the list the edges form a directed cycle:
    each edge enters the node that the next edge leaves. *)
Definition forward_cycle (es : list nat) : bool :=
  forallb (λ i, to (edges_ !!! (es !!! i))
                =? from (edges_ !!! next_in_cycle es i))
          (seq 0 (length es)).

(** The same cycle listed against its direction: each edge leaves the
    node that the next edge of the list enters. *)
Definition backward_cycle (es : list nat) : bool :=
  forallb (λ i, from (edges_ !!! (es !!! i))
                =? to (edges_ !!! next_in_cycle es i))
          (seq 0 (length es)).

End Cycles.

(** ** The edge table and the propagator *)

(** [std::unordered_multimap<literal_t, int>], kept as the sequence in
    which an iteration meets its entries. Entries of one key are met in
    a row; where [emplace] puts a new entry among them is up to the
    library. *)
Class UnorderedMultimap := {
  mm_emplace : literal_t → nat → list (literal_t * nat) → list (literal_t * nat)
}.

(** Keys that occur again occur next. *)
Fixpoint grouped (m : list (literal_t * nat)) : Prop :=
  match m with
  | [] => True
  | kv :: m' =>
    grouped m' ∧
    (kv.1 ∈ m'.*1 → ∃ kv' m'', m' = kv' :: m'' ∧ kv'.1 = kv.1)
  end.

Class UnorderedMultimapLaws (MM : UnorderedMultimap) : Prop := {
  mm_emplace_perm : ∀ k v m, mm_emplace k v m ≡ₚ (k, v) :: m;
  mm_emplace_grouped : ∀ k v m, grouped m → grouped (mm_emplace k v m)
}.

(** [find(lit)]: the iteration from the first entry of the key on. *)
Fixpoint mm_find (lit : literal_t) (m : list (literal_t * nat))
  : list (literal_t * nat) :=
  match m with
  | [] => []
  | kv :: m' => if (kv.1 =? lit)%Z then m else mm_find lit m'
  end.

(** The values met by
    [for (it = find(lit); it != end && it->first == lit; ++it)]. *)
Fixpoint equal_run (lit : literal_t) (it : list (literal_t * nat)) : list nat :=
  match it with
  | [] => []
  | kv :: it' => if (kv.1 =? lit)%Z then kv.2 :: equal_run lit it' else []
  end.

Definition edges_for (lit : literal_t) (m : list (literal_t * nat)) : list nat :=
  equal_run lit (mm_find lit m).

(** The GNU library puts a new entry in front of the entries of its key.
    (A new key starts a run of its own; the model puts it last.) *)
Fixpoint emplace_front (k : literal_t) (v : nat) (m : list (literal_t * nat))
  : list (literal_t * nat) :=
  match m with
  | [] => [(k, v)]
  | kv :: m' =>
    if (kv.1 =? k)%Z then (k, v) :: kv :: m' else kv :: emplace_front k v m'
  end.

Definition gnu_multimap : UnorderedMultimap := {| mm_emplace := emplace_front |}.

(** What [add_edge_atom] reads of a theory atom [&diff { u - v } <= k]. *)
Inductive Guard :=
  | GuardNumber (n : Z)
  | GuardMinus (n : Z).

Record TheoryAtom := {
  atom_term : string;
  atom_literal : literal_t;
  atom_guard : Guard;
  atom_u : string;
  atom_v : string
}.

Record DifferenceLogicPropagator := {
  lit_to_edges_ : list (literal_t * nat);
  edges_ : list Edge;
  vert_map_ : list string;
  vert_map_inv_ : gmap string nat;
  watches_ : list literal_t
}.

Definition new_propagator : DifferenceLogicPropagator :=
  {| lit_to_edges_ := []; edges_ := []; vert_map_ := []; vert_map_inv_ := ∅;
     watches_ := [] |}.

Definition map_vert (name : string) (p : DifferenceLogicPropagator)
  : nat * DifferenceLogicPropagator :=
  match vert_map_inv_ p !! name with
  | Some id => (id, p)
  | None =>
    (length (vert_map_ p),
     {| lit_to_edges_ := lit_to_edges_ p; edges_ := edges_ p;
        vert_map_ := vert_map_ p ++ [name];
        vert_map_inv_ := <[name := length (vert_map_ p)]> (vert_map_inv_ p);
        watches_ := watches_ p |})
  end.

Section Init.
Context {MM : UnorderedMultimap}.

Definition add_edge_atom (atom : TheoryAtom) (p : DifferenceLogicPropagator)
  : DifferenceLogicPropagator :=
  let l := atom_literal atom in
  let weight := match atom_guard atom with
                | GuardNumber n => n
                | GuardMinus n => (- n)%Z
                end in
  let '(u_id, p) := map_vert (atom_u atom) p in
  let '(v_id, p) := map_vert (atom_v atom) p in
  let id := length (edges_ p) in
  {| lit_to_edges_ := mm_emplace l id (lit_to_edges_ p);
     edges_ := edges_ p ++ [{| from := u_id; to := v_id; weight := weight;
                               lit := l |}];
     vert_map_ := vert_map_ p;
     vert_map_inv_ := vert_map_inv_ p;
     watches_ := watches_ p ++ [l] |}.

Definition init (atoms : list TheoryAtom) (p : DifferenceLogicPropagator)
  : DifferenceLogicPropagator :=
  fold_left (λ p atom,
               if String.eqb (atom_term atom) "diff"
               then add_edge_atom atom p else p)
            atoms p.

End Init.

(** The table [es] as pairs of a literal and the index of its edge, in
    registration order. *)
Definition registrations (es : list Edge) : list (literal_t * nat) :=
  imap (λ i e, (lit e, i)) es.

(** The indices of the edges that [l] controls, in registration order. *)
Definition registered (l : literal_t) (es : list Edge) : list nat :=
  (filter (λ kv, kv.1 = l) (registrations es)).*2.

(** A trail of edge indices: an entry for every edge of every literal of
    [changes]. *)
Definition trail_of_edges (m : list (literal_t * nat))
    (trail changes : list literal_t) : list Z :=
  trail ++ (changes ≫= λ l, Z.of_nat <$> edges_for l m).

(** Two atoms of one literal, [&diff { a - b } <= 5] and
    [&diff { b - c } <= 5], both under the solver literal 7. *)
Definition shared_literal_atoms : list TheoryAtom :=
  [ {| atom_term := "diff"; atom_literal := 7%Z; atom_guard := GuardNumber 5;
       atom_u := "a"; atom_v := "b" |};
    {| atom_term := "diff"; atom_literal := 7%Z; atom_guard := GuardNumber 5;
       atom_u := "b"; atom_v := "c" |} ].

(** The atoms of S1, with [c - a <= -3] written with a minus sign. *)
Definition s1_atoms : list TheoryAtom :=
  [ {| atom_term := "diff"; atom_literal := 5%Z; atom_guard := GuardNumber 1;
       atom_u := "a"; atom_v := "b" |};
    {| atom_term := "diff"; atom_literal := 6%Z; atom_guard := GuardNumber 1;
       atom_u := "b"; atom_v := "c" |};
    {| atom_term := "diff"; atom_literal := 7%Z; atom_guard := GuardMinus 3;
       atom_u := "c"; atom_v := "a" |} ].

Definition shared_propagator : DifferenceLogicPropagator :=
  init (MM := gnu_multimap) shared_literal_atoms new_propagator.

Definition s1_propagator : DifferenceLogicPropagator :=
  init (MM := gnu_multimap) s1_atoms new_propagator.

(** A host that takes no clause: [ctl.add_clause] answers false. *)
Definition host_refuses (clause : list literal_t) : bool := false.

(** The table of the literals holds the registrations, the entries of a
    key next to each other. *)
Definition table_ok (p : DifferenceLogicPropagator) : Prop :=
  grouped (lit_to_edges_ p) ∧ lit_to_edges_ p ≡ₚ registrations (edges_ p).

Section Propagate.
Context {PQ : PriorityQueue}.
Variable p : DifferenceLogicPropagator.
(** The host: the answers of [ctl.add_clause(clause)] and of the
    [ctl.propagate()] that follows it. *)
Variable ctl_add_clause : list literal_t → bool.
Variable ctl_propagate : list literal_t → bool.

Record DLState := {
  edge_trail : list literal_t;
  dl_graph : DifferenceLogicGraph;
  propagated : nat
}.

Definition new_state : DLState :=
  {| edge_trail := []; dl_graph := new_graph; propagated := 0 |}.

(** How a call of [check_consistency] ends. *)
Inductive outcome :=
  | Consistent (st : DLState)
  | Conflict (clause : list literal_t) (st : DLState)
  | MustNotHappen (clause : list literal_t) (st : DLState)
  | Failed (st : DLState).

Definition outcome_state (o : outcome) : DLState :=
  match o with
  | Consistent st | Conflict _ st | MustNotHappen _ st | Failed st => st
  end.

Definition with_graph (g : DifferenceLogicGraph) (st : DLState) : DLState :=
  {| edge_trail := edge_trail st; dl_graph := g; propagated := propagated st |}.

(** Lines 340-343. *)
Definition conflict_clause (neg_cycle : list nat) : list literal_t :=
  map (λ eid, (- lit (edges_ p !!! eid))%Z) neg_cycle.

(** Lines 337-349: the edges of one literal. [None]: all were added. *)
Fixpoint add_edges_of (it : list nat) (st : DLState) : DLState + outcome :=
  match it with
  | [] => inl st
  | eid :: it' =>
    match add_edge (edges_ p) eid (dl_graph st) with
    | Ok (neg_cycle, g) =>
      let st := with_graph g st in
      match neg_cycle with
      | [] => add_edges_of it' st
      | _ :: _ =>
        let clause := conflict_clause neg_cycle in
        if negb (ctl_add_clause clause) || negb (ctl_propagate clause)
        then inr (Conflict clause st)
        else inr (MustNotHappen clause st)
      end
    | _ => inr (Failed st)
    end
  end.

Fixpoint check_loop (fuel : nat) (st : DLState) : outcome :=
  if propagated st <? length (edge_trail st) then
    match fuel with
    | 0 => Failed st
    | S fuel' =>
      let l := edge_trail st !!! propagated st in
      match add_edges_of (edges_for l (lit_to_edges_ p)) st with
      | inl st =>
        check_loop fuel' {| edge_trail := edge_trail st;
                            dl_graph := dl_graph st;
                            propagated := S (propagated st) |}
      | inr o => o
      end
    end
  else Consistent st.

Definition check_consistency (st : DLState) : outcome :=
  check_loop (length (edge_trail st) - propagated st) st.

(** Lines 325-332. *)
Definition propagate (changes : list literal_t) (st : DLState) : outcome :=
  check_consistency {| edge_trail := edge_trail st ++ changes;
                       dl_graph := dl_graph st;
                       propagated := propagated st |}.

(** Lines 357-363. The host undoes changes that it has propagated, so
    that the trail is no shorter than [changes]. *)
Definition undo (changes : list literal_t) (st : DLState) : DLState :=
  {| edge_trail := take (length (edge_trail st) - length changes)
                        (edge_trail st);
     dl_graph := reset (dl_graph st);
     propagated := 0 |}.

(** Lines 264-275: the names and values that [print_assignment] prints. *)
Definition assignment (st : DLState) : list (string * Z) :=
  omap (λ '(idx, name),
          if node_value_defined (dl_graph st) idx
          then Some (name, node_value (dl_graph st) idx) else None)
       (imap pair (vert_map_ p)).

End Propagate.

Section Clauses.
Context {PQ : PriorityQueue}.
Variable p : DifferenceLogicPropagator.

(** The clause negates the literals of a cycle that [add_edge] returned
    and that left the graph of [st']. *)
Definition clause_of_cycle (clause : list literal_t) (st' : DLState) : Prop :=
  ∃ eid g neg_cycle,
    add_edge (edges_ p) eid g = Ok (neg_cycle, dl_graph st') ∧
    neg_cycle ≠ [] ∧
    clause = map (λ e, (- lit (edges_ p !!! e))%Z) neg_cycle.

Definition from_cycle (o : outcome) : Prop :=
  match o with
  | Conflict clause st' | MustNotHappen clause st' =>
    clause_of_cycle clause st'
  | _ => True
  end.

End Clauses.


(** ** The contract of [add_edge] *)

Section Contract.
Context {PQ : PriorityQueue}.
Variable edges_ : list Edge.

(** The invariants at quiescence: the state in which [add_edge] is to be
    called. *)
Definition quiescent (g : DifferenceLogicGraph) : bool :=
  wf_graph edges_ g && scratch_clean g && feasible edges_ g
  && active_defined edges_ g.


(** [add_edge] for each index of [xs] in turn, as [check_consistency]
    calls it while no cycle is met; the cycles returned are collected. *)
Fixpoint add_edges (xs : list nat) (g : DifferenceLogicGraph)
  : result (list (list nat) * DifferenceLogicGraph) :=
  match xs with
  | [] => Ok ([], g)
  | x :: xs' =>
    r ← add_edge edges_ x g ;
    rs ← add_edges xs' r.2 ;
    Ok (r.1 :: rs.1, rs.2)
  end.

End Contract.

(** ** The scenarios of the spec, as data *)

Definition mk_edge (u v : nat) (w : Z) (l : literal_t) : Edge :=
  {| from := u; to := v; weight := w; lit := l |}.

Arguments mk_edge (u v)%_nat (w l)%_Z.

Definition mk_node (out : list nat) (p : Z) (e : nat) : DifferenceLogicNode :=
  {| outgoing := out; potential := p; last_edge := e; gamma := 0%Z;
     changed := false |}.
Arguments mk_node out%_list p%_Z e%_nat.

Definition mk_graph (ns : list DifferenceLogicNode)
  : @DifferenceLogicGraph list_pq :=
  {| gamma_ := ([] : @pq list_pq); changed_ := []; nodes_ := ns |}.

(** S1: a -> b (1), b -> c (1), c -> a (-3); the nodes are a = 0, b = 1,
    c = 2 and the literals 5, 6, 7. *)
Definition s1_edges : list Edge :=
  [mk_edge 0 1 1 5; mk_edge 1 2 1 6; mk_edge 2 0 (-3) 7].

(** S1 after its first two edges. *)
Definition s1_graph : @DifferenceLogicGraph list_pq :=
  mk_graph [mk_node [0] 0 0; mk_node [1] 0 0; mk_node [] 0 0].

(** S1 after the third edge was refused. *)
Definition s1_graph_after : @DifferenceLogicGraph list_pq :=
  mk_graph [mk_node [0] (-3) 2; mk_node [1] (-2) 0; mk_node [] 0 1].

(** S2: x -> y (5), y -> x (-5); x = 0, y = 1. *)
Definition s2_edges : list Edge := [mk_edge 0 1 5 5; mk_edge 1 0 (-5) 6].


Definition s2_graph : @DifferenceLogicGraph list_pq :=
  mk_graph [mk_node [0] (-5) 1; mk_node [1] 0 0].

(** S3: the loop a -> a (-1). *)
Definition s3_edges : list Edge := [mk_edge 0 0 (-1) 5].

(** S5: a -> b (1), then [reset], then b -> a (-2). *)
Definition s5_edges : list Edge := [mk_edge 0 1 1 5; mk_edge 1 0 (-2) 6].

(** A first edge a -> b of weight -1. *)
Definition s7_edges : list Edge := [mk_edge 0 1 (-1) 5].

Definition s7_graph : @DifferenceLogicGraph list_pq :=
  mk_graph [mk_node [0] 0 0; mk_node [] (-1) 0].

(** S8: a -> b (-2147483647), b -> c (-1): the weights sum to [INT_MIN]. *)
Definition s8_edges : list Edge :=
  [mk_edge 0 1 (-2147483647) 5; mk_edge 1 2 (-1) 6].


Definition s8_graph : @DifferenceLogicGraph list_pq :=
  mk_graph [mk_node [0] 0 0; mk_node [1] (-2147483647) 0;
            mk_node [] undefined_potential 1].

(** S1 with a fourth edge d -> b (-3); d = 3. *)
Definition s9_edges : list Edge := s1_edges ++ [mk_edge 3 1 (-3) 8].

(** ** Further notions: frames, vertex names, the trail, the command line *)

(** The node records [ns'] are those of [ns] with the same outgoing
    lists. *)
Definition same_out (ns ns' : list DifferenceLogicNode) : Prop :=
  length ns' = length ns ∧
  ∀ t, outgoing (ns' !!! t) = outgoing (ns !!! t).

(** [vert_map_] and [vert_map_inv_] are inverse to each other. *)
Definition wf_verts (p : DifferenceLogicPropagator) : Prop :=
  ∀ name i, vert_map_inv_ p !! name = Some i ↔ vert_map_ p !! i = Some name.

(** The atoms that [init] registers, in the order of the program. *)
Definition diff_atoms (atoms : list TheoryAtom) : list TheoryAtom :=
  filter (λ a, atom_term a = "diff") atoms.

(** The number that a guard stands for. *)
Definition guard_weight (g : Guard) : Z :=
  match g with GuardNumber n => n | GuardMinus n => (- n)%Z end.

(** The edges decode to the atoms [done], and every vertex is named by
    one of them. *)
Definition table_of (done : list TheoryAtom) (p : DifferenceLogicPropagator)
  : Prop :=
  wf_verts p ∧
  watches_ p = atom_literal <$> done ∧
  length (edges_ p) = length done ∧
  (∀ i a, done !! i = Some a →
     ∃ e, edges_ p !! i = Some e ∧
          lit e = atom_literal a ∧ weight e = guard_weight (atom_guard a) ∧
          vert_map_ p !! from e = Some (atom_u a) ∧
          vert_map_ p !! to e = Some (atom_v a)) ∧
  ∀ name, name ∈ vert_map_ p →
    ∃ a, a ∈ done ∧ (name = atom_u a ∨ name = atom_v a).

(** The active edges are the edges of the literals of the trail that
    have been processed. *)
Definition synced {PQ : PriorityQueue} (p : DifferenceLogicPropagator)
    (st : DLState) : Prop :=
  ∀ e, active (dl_graph st) e ↔
       ∃ i, i < propagated st ∧
            e ∈ edges_for (edge_trail st !!! i) (lit_to_edges_ p).

(** The edge [eid] of the literal under the cursor of [st'] was handed to
    [add_edge]. *)
Definition culprit {PQ : PriorityQueue} (p : DifferenceLogicPropagator)
    (st' : DLState) (eid : nat) : Prop :=
  propagated st' < length (edge_trail st') ∧
  eid ∈ edges_for (edge_trail st' !!! propagated st') (lit_to_edges_ p).

Definition dashes : string := "--".

(** [main], the loop over [argv + 1]: the arguments before the first
    [--] are files to load, the arguments after it go to the solver. *)
Fixpoint split_args (args : list string) : list string * list string :=
  match args with
  | [] => ([], [])
  | arg :: rest =>
    if String.eqb arg dashes then ([], rest)
    else let r := split_args rest in (arg :: r.1, r.2)
  end.

(** The atoms of S2: [&diff { x - y } <= 5] and [&diff { y - x } <= -5]. *)
Definition s2_atoms : list TheoryAtom :=
  [ {| atom_term := "diff"; atom_literal := 5%Z; atom_guard := GuardNumber 5;
       atom_u := "x"; atom_v := "y" |};
    {| atom_term := "diff"; atom_literal := 6%Z; atom_guard := GuardMinus 5;
       atom_u := "y"; atom_v := "x" |} ].

Definition s2_propagator : DifferenceLogicPropagator :=
  init (MM := gnu_multimap) s2_atoms new_propagator.

(** S2 after both literals. *)
Definition s2_state : DLState :=
  {| edge_trail := [5; 6]%Z; dl_graph := s2_graph; propagated := 2 |}.

(** S1 with the first two literals on the trail, before and after
    [check_consistency]. *)
Definition s1_state_two : DLState :=
  {| edge_trail := [5; 6]%Z; dl_graph := new_graph (PQ := list_pq);
     propagated := 0 |}.

Definition s1_state_two_after : DLState :=
  outcome_state
    (check_consistency s1_propagator host_refuses host_refuses s1_state_two).

(** S1 with all three literals on the trail. *)
Definition s1_state_three : DLState :=
  {| edge_trail := [5; 6; 7]%Z; dl_graph := new_graph (PQ := list_pq);
     propagated := 0 |}.

Definition s1_state_three_after : DLState :=
  outcome_state
    (check_consistency s1_propagator host_refuses host_refuses s1_state_three).






(** ** The list queue is a priority queue *)

Lemma list_top_None q : list_top q = None ↔ q = [].
Proof.
  destruct q as [|x q]; simpl; [done|].
  destruct (list_top q); [destruct (_ <=? _)%Z|]; done.
Qed.

Lemma list_top_pop q x : list_top q = Some x → q ≡ₚ x :: list_pop q.
Proof.
  revert x. induction q as [|a q IH]; intros x; simpl; [done|].
  destruct (list_top q) as [y|] eqn:Hy.
  - destruct (upd_gamma a <=? upd_gamma y)%Z; intros [= <-]; [done|].
    rewrite (IH y eq_refl) at 1. apply Permutation_swap.
  - intros [= <-]. done.
Qed.

Lemma list_top_min q x y :
  list_top q = Some x → y ∈ q → (upd_gamma x <= upd_gamma y)%Z.
Proof.
  revert x. induction q as [|a q IH]; intros x; simpl; [done|].
  intros Hx Hin. destruct (list_top q) as [z|] eqn:Hz.
  - specialize (IH z eq_refl).
    destruct (upd_gamma a <=? upd_gamma z)%Z eqn:Hle;
      injection Hx as <-; apply elem_of_cons in Hin as [->|Hin];
      try specialize (IH Hin); lia.
  - apply list_top_None in Hz as ->. injection Hx as <-.
    apply elem_of_cons in Hin as [->|Hin]; [lia|]. by apply elem_of_nil in Hin.
Qed.

Lemma list_top_elem q x : list_top q = Some x → x ∈ q.
Proof.
  intros Hx. rewrite (list_top_pop _ _ Hx). apply list_elem_of_here.
Qed.

Lemma list_top_push q x y :
  list_top q = Some x → (upd_gamma x <= upd_gamma y)%Z →
  list_top (q ++ [y]) = Some x.
Proof.
  revert x. induction q as [|a q IH]; intros x; simpl; [done|].
  intros Hx Hle. destruct (list_top q) as [z|] eqn:Hz.
  - destruct (upd_gamma a <=? upd_gamma z)%Z eqn:Ha; injection Hx as <-.
    + apply Z.leb_le in Ha.
      destruct (list_top (q ++ [y])) as [z'|] eqn:Hz'.
      * assert (upd_gamma a <= upd_gamma z')%Z as Hle'.
        { apply list_top_elem, elem_of_app in Hz' as [Hin|Hin].
          - pose proof (list_top_min _ _ _ Hz Hin). lia.
          - apply list_elem_of_singleton in Hin as ->. lia. }
        apply Z.leb_le in Hle'. by rewrite Hle'.
      * apply list_top_None in Hz'. by destruct q.
    + rewrite (IH z eq_refl Hle). by rewrite Ha.
  - apply list_top_None in Hz as ->. injection Hx as <-. simpl.
    destruct (upd_gamma a <=? upd_gamma y)%Z eqn:Ha; [done|].
    apply Z.leb_gt in Ha. lia.
Qed.

Lemma list_pq_laws : PriorityQueueLaws list_pq.
Proof.
  split; simpl.
  - done.
  - intros x q. by rewrite Permutation_app_comm.
  - apply list_top_None.
  - apply list_top_pop.
  - apply list_top_min.
  - apply list_top_push.
Qed.

(** ** Lookups in updated node vectors *)

Lemma pq_top_elem `{PriorityQueueLaws} q x :
  pq_top q = Some x → x ∈ pq_items q.
Proof. intros Hx. rewrite (pq_top_pop _ _ Hx). apply list_elem_of_here. Qed.

Lemma changed_lt (ns : list DifferenceLogicNode) t :
  changed (ns !!! t) = true → t < length ns.
Proof.
  intros Hc. destruct (decide (t < length ns)) as [|Hge]; [done|].
  rewrite list_lookup_total_alt, lookup_ge_None_2 in Hc by lia. done.
Qed.

Lemma outgoing_lt (ns : list DifferenceLogicNode) t e :
  e ∈ outgoing (ns !!! t) → t < length ns.
Proof.
  intros He. destruct (decide (t < length ns)) as [|Hge]; [done|].
  rewrite list_lookup_total_alt, lookup_ge_None_2 in He by lia.
  by apply elem_of_nil in He.
Qed.

Lemma gamma_lt (ns : list DifferenceLogicNode) t :
  gamma (ns !!! t) ≠ 0%Z → t < length ns.
Proof.
  intros Hc. destruct (decide (t < length ns)) as [|Hge]; [done|].
  rewrite list_lookup_total_alt, lookup_ge_None_2 in Hc by lia. done.
Qed.

Lemma elem_of_take_1 {A} (l : list A) n x : x ∈ take n l → x ∈ l.
Proof.
  intros (i & Hi & _)%elem_of_take. by eapply list_elem_of_lookup_2.
Qed.

Lemma sum_alter_same {A} (h : A → nat) (f : A → A) i l :
  (∀ n, h (f n) = h n) →
  sum_list_with h (alter f i l) = sum_list_with h l.
Proof.
  intros Hf. revert i. induction l as [|a l IH]; intros [|i]; simpl; try done.
  - by rewrite Hf.
  - f_equal. apply IH.
Qed.

Lemma sum_alter_at {A} `{!Inhabited A} (h : A → nat) (f : A → A) i l :
  i < length l →
  sum_list_with h (alter f i l) + h (l !!! i)
  = sum_list_with h l + h (f (l !!! i)).
Proof.
  revert i. induction l as [|a l IH]; intros [|i] Hi; simpl in *; try lia.
  specialize (IH i ltac:(lia)).
  change (list_alter f i l) with (alter f i l).
  change (lookup_total i l) with (l !!! i) in *. lia.
Qed.

(** A field that [f] keeps reads the same in the altered vector. *)
Lemma alter_keeps {B} (proj : DifferenceLogicNode → B) f i
    (l : list DifferenceLogicNode) j :
  (∀ n, proj (f n) = proj n) → proj (alter f i l !!! j) = proj (l !!! j).
Proof.
  intros Hf. rewrite list_lookup_total_alter. case_decide as Hd; [|done].
  destruct Hd as [-> _]. apply Hf.
Qed.

(** Rewrites the reads of altered vectors and splits on the indices. *)
Ltac node_split :=
  repeat match goal with
  | |- context [alter ?f ?i ?l !!! ?j] =>
    rewrite (list_lookup_total_alter f l i j)
  end;
  repeat match goal with
  | |- context [decide ?P] =>
    let H := fresh "Hidx" in destruct (decide P) as [H|H]
  end; simpl in *.

Section Scan.
Context {PQ : PriorityQueue} {PQL : PriorityQueueLaws PQ}.
Variable edges_ : list Edge.
Variable uv_idx : nat.
Variable ns0 : list DifferenceLogicNode.

Local Abbreviation u := (from (edges_ !!! uv_idx)).
Local Abbreviation v := (to (edges_ !!! uv_idx)).
Local Abbreviation inv := (scan_inv edges_ uv_idx ns0).
Local Abbreviation rinv := (relax_inv edges_ uv_idx ns0).

Hypothesis Hwf0 : ∀ s e, e ∈ outgoing (ns0 !!! s) →
  e < length edges_ ∧ from (edges_ !!! e) = s ∧ to (edges_ !!! e) < length ns0.
Hypothesis Hfeas0 : ∀ s e, e ∈ outgoing (ns0 !!! s) →
  (0 <= potential (ns0 !!! s) + weight (edges_ !!! e)
        - potential (ns0 !!! to (edges_ !!! e)))%Z.

(** The top entry of a node that is not changed carries the node's
    gamma: the assertion of line 177 holds. *)
Lemma top_gamma g x :
  inv g → pq_top (gamma_ g) = Some x →
  changed (nodes_ g !!! node_idx x) = false →
  gamma (nodes_ g !!! node_idx x) = upd_gamma x ∧ (upd_gamma x < 0)%Z ∧
  node_idx x < length ns0.
Proof.
  intros Hi Hx Hc.
  destruct (si_items _ _ _ _ Hi x (pq_top_elem _ _ Hx)) as (Hlt & Hneg & [Hc'|Hle]);
    [congruence|].
  destruct (si_gam _ _ _ _ Hi (node_idx x)) as [[_ Hpos]|[_ Hin]]; [lia|lia|].
  pose proof (pq_top_min _ _ _ Hx Hin) as Hmin. simpl in Hmin.
  split_and!; [lia|done|done].
Qed.

Lemma reached_by_mono g g' t p l l' :
  reached_by edges_ uv_idx ns0 g t p l →
  last_edge (nodes_ g' !!! t) = last_edge (nodes_ g !!! t) →
  (∀ s, s ∈ l ∨ s = u → potential (nodes_ g' !!! s) = potential (nodes_ g !!! s)) →
  (∀ s, s ∈ l → s ∈ l') →
  reached_by edges_ uv_idx ns0 g' t p l'.
Proof.
  unfold reached_by. intros (He & Hto & Hp & Hfrom) Hle Hpot Hsub.
  rewrite Hle. split_and!; [done|done| |].
  - rewrite Hpot; [done|]. destruct Hfrom as [[-> _]|[? _]]; auto.
  - destruct Hfrom as [?|[? ?]]; auto.
Qed.

Lemma mark_inv g x :
  inv g → pq_top (gamma_ g) = Some x →
  changed (nodes_ g !!! node_idx x) = false →
  gamma (nodes_ g !!! u) = 0%Z →
  inv (mark_changed (node_idx x) g).
Proof.
  intros Hi Hx Hc Hu0.
  destruct (top_gamma _ _ Hi Hx Hc) as (Hg & Hneg & Hlt).
  assert (Hfirst := λ E, si_first _ _ _ _ Hi E x (pq_top_elem _ _ Hx)).
  destruct x as [s gx]; simpl in *.
  assert (s ≠ u) as Hsu by (intros E; rewrite E in Hg; lia).
  assert (s ∉ changed_ g) as Hsc.
  { rewrite <- (si_chg _ _ _ _ Hi). congruence. }
  assert (Hlen := si_len _ _ _ _ Hi).
  split; unfold mark_changed; simpl.
  - by rewrite length_alter.
  - intros t. node_split; [|apply Hi]. destruct Hidx as [-> _]. apply Hi.
  - intros t. rewrite elem_of_app, list_elem_of_singleton. node_split.
    + destruct Hidx as [-> _]. split; auto.
    + rewrite (si_chg _ _ _ _ Hi). split; [auto|]. intros [?| ->]; [done|].
      destruct Hidx; split; [done|lia].
  - intros t. node_split; [done|]. apply Hi.
  - intros t. node_split; [done|]. apply Hi.
  - intros y Hy. destruct (si_items _ _ _ _ Hi y Hy) as (? & ? & ?).
    split_and!; [done..|]. node_split; auto.
  - intros t. node_split; [done|]. apply Hi.
  - intros t. node_split; [lia|]. intros Ht.
    assert (t ≠ s) as Hts by (intros ->; destruct Hidx; split; [done|lia]).
    eapply reached_by_mono; [by apply (si_pred _ _ _ _ Hi)|..].
    + simpl. by rewrite list_lookup_total_alter_ne.
    + simpl. intros s' Hs'. rewrite list_lookup_total_alter_ne; [done|].
      intros <-. destruct Hs'; done.
    + intros s'. rewrite elem_of_app. auto.
  - intros i t Hit. apply lookup_app_Some in Hit as [Hit|[Hge Hit]].
    + assert (t ∈ changed_ g) as Htc by (eapply list_elem_of_lookup_2; done).
      assert (t ≠ s) as Hts by (intros ->; done).
      rewrite take_app_le by (apply lookup_lt_Some in Hit; lia).
      node_split; [destruct_and!; done|].
      eapply reached_by_mono; [by apply (si_chain _ _ _ _ Hi)|..].
      * simpl. by rewrite list_lookup_total_alter_ne.
      * simpl. intros s' Hs'. rewrite list_lookup_total_alter_ne; [done|].
        intros <-. destruct Hs' as [Hs'|]; [|done].
        apply Hsc. eapply elem_of_take_1; done.
      * done.
    + apply list_lookup_singleton_Some in Hit as [Hi0 <-].
      assert (i = length (changed_ g)) as -> by lia.
      rewrite take_app_length.
      node_split; [|destruct Hidx; split; [done|lia]].
      rewrite (si_pot _ _ _ _ Hi s Hc).
      eapply reached_by_mono; [apply (si_pred _ _ _ _ Hi s); lia|..].
      * simpl. rewrite list_lookup_total_alter_eq by lia. done.
      * simpl. intros s' Hs'. rewrite list_lookup_total_alter_ne; [done|].
        intros <-. destruct Hs'; done.
      * done.
  - intros Hnil. by destruct (changed_ g).
  - intros Hnil. by destruct (changed_ g).
  - intros _. rewrite elem_of_app, list_elem_of_singleton.
    destruct (changed_ g) as [|c cs] eqn:Hcs.
    + right. symmetry. by apply Hfirst.
    + left. rewrite <- Hcs. apply (si_v _ _ _ _ Hi). by rewrite Hcs.
  - rewrite elem_of_app, list_elem_of_singleton. node_split.
    + destruct Hidx as [Hsv _]. intros _. rewrite Hsv.
      apply (si_root _ _ _ _ Hi). left. rewrite <- Hsv. lia.
    + intros [?|[?|Hvs]]; [apply (si_root _ _ _ _ Hi); auto..|].
      destruct Hidx. split; [done|lia].
  - rewrite elem_of_app, list_elem_of_singleton.
    intros [Hin|Heq]; [by apply (si_u _ _ _ _ Hi)|done].
Qed.

Lemma work_alter g f i q c :
  (∀ n, changed (f n) = changed n ∧ outgoing (f n) = outgoing n) →
  work {| gamma_ := q; changed_ := c; nodes_ := alter f i (nodes_ g) |}
  = length (pq_items q) + (work g - length (pq_items (gamma_ g))).
Proof.
  intros Hf. unfold work. simpl. f_equal.
  rewrite Nat.add_comm, Nat.add_sub.
  apply sum_alter_same. intros n. by destruct (Hf n) as [-> ->].
Qed.

Lemma relax_edge_cases s st g :
  st < length edges_ →
  let t := to (edges_ !!! st) in
  let gm := (potential (nodes_ g !!! s) + weight (edges_ !!! st)
             - potential (nodes_ g !!! t))%Z in
  (relax_edge edges_ s st g = Ok g ∧
   (changed (nodes_ g !!! t) = true ∨ (gamma (nodes_ g !!! t) <= gm)%Z)) ∨
  (relax_edge edges_ s st g = Ok (update_gamma t st gm g) ∧
   changed (nodes_ g !!! t) = false ∧ (gm < gamma (nodes_ g !!! t))%Z).
Proof.
  intros Hst t gm. unfold relax_edge.
  destruct (Nat.ltb_spec st (length edges_)) as [_|]; [simpl|lia].
  fold t. destruct (changed (nodes_ g !!! t)) eqn:Hc; [auto|].
  fold gm. destruct (Z.ltb_spec gm (gamma (nodes_ g !!! t))); [right|left]; auto.
Qed.

Lemma update_gamma_inv g s st x :
  inv g → s ∈ changed_ g → st ∈ outgoing (ns0 !!! s) →
  pq_top (gamma_ g) = Some x →
  potential (nodes_ g !!! s) = (potential (ns0 !!! s) + upd_gamma x)%Z →
  let t := to (edges_ !!! st) in
  let gm := (potential (nodes_ g !!! s) + weight (edges_ !!! st)
             - potential (nodes_ g !!! t))%Z in
  changed (nodes_ g !!! t) = false → (gm < gamma (nodes_ g !!! t))%Z →
  inv (update_gamma t st gm g) ∧
  pq_top (gamma_ (update_gamma t st gm g)) = Some x ∧
  work (update_gamma t st gm g) = S (work g).
Proof.
  intros Hi Hs Hst Hx Hps t gm Hc Hlt.
  destruct (Hwf0 _ _ Hst) as (Hste & Hfrom & Hto). fold t in Hto.
  assert (Hrw := Hfeas0 _ _ Hst). fold t in Hrw.
  assert (Hpt := si_pot _ _ _ _ Hi t Hc).
  assert (upd_gamma x <= gm)%Z as Hge by (unfold gm; lia).
  assert (Hlen := si_len _ _ _ _ Hi).
  assert (changed_ g ≠ []) as Hne by (intros E; rewrite E in Hs; by apply elem_of_nil in Hs).
  assert (Hvc := si_v _ _ _ _ Hi Hne).
  assert (t ≠ v) as Htv.
  { intros E. apply (si_chg _ _ _ _ Hi) in Hvc. congruence. }
  assert (gamma (nodes_ g !!! t) <= 0)%Z as Hg0.
  { destruct (decide (gamma (nodes_ g !!! t) = 0%Z)) as [->|Hn]; [done|].
    destruct (si_gam _ _ _ _ Hi t Hn) as [[? _]|[? _]]; [done|lia]. }
  assert (s ≠ t) as Hst'.
  { intros E. apply (si_chg _ _ _ _ Hi) in Hs. congruence. }
  assert (t ∉ changed_ g) as Htc.
  { rewrite <- (si_chg _ _ _ _ Hi). congruence. }
  split; [|split].
  2:{ simpl. by apply pq_top_push. }
  2:{ unfold update_gamma. rewrite work_alter by done.
      rewrite pq_push_items. unfold work. simpl. lia. }
  split; unfold update_gamma; simpl.
  - by rewrite length_alter.
  - intros t'. node_split; [|apply Hi]. destruct Hidx as [<- _]. apply Hi.
  - intros t'. node_split; [|apply Hi]. destruct Hidx as [<- _]. apply Hi.
  - intros t'. node_split; [|apply Hi]. destruct Hidx as [<- _]. apply Hi.
  - intros t'. node_split; [|apply Hi]. destruct Hidx as [<- _]. congruence.
  - intros y. rewrite pq_push_items, elem_of_cons. intros [->|Hy]; simpl.
    + split; [lia|]. split; [lia|]. right. node_split; [lia|].
      destruct Hidx. split; [done|lia].
    + destruct (si_items _ _ _ _ Hi y Hy) as (? & ? & Hor).
      split_and!; [done..|]. node_split; [|done].
      destruct Hidx as [E _]. right. rewrite <- E in Hor.
      destruct Hor; [congruence|lia].
  - intros t'. rewrite pq_push_items. node_split.
    + destruct Hidx as [<- _]. intros _. right. split; [lia|]. apply list_elem_of_here.
    + intros Hn. destruct (si_gam _ _ _ _ Hi t' Hn) as [?|[? ?]]; [auto|].
      right. split; [done|]. by apply list_elem_of_further.
  - intros t'. node_split.
    + destruct Hidx as [<- _]. intros _. unfold reached_by. simpl.
      rewrite list_lookup_total_alter_eq by lia. simpl.
      split_and!; [done|done| |right; by rewrite Hfrom].
      rewrite Hfrom, list_lookup_total_alter_ne by done. unfold gm. lia.
    + intros Hn. eapply reached_by_mono; [by apply (si_pred _ _ _ _ Hi)|..]; simpl.
      * rewrite list_lookup_total_alter_ne; [done|]. intros E. destruct Hidx. split; [done|lia].
      * intros s' _. by apply (alter_keeps potential).
      * done.
  - intros i t' Hit.
    assert (t' ≠ t) as Hne'.
    { intros ->. apply Htc. by eapply list_elem_of_lookup_2. }
    node_split; [by destruct Hidx|].
    eapply reached_by_mono; [by apply (si_chain _ _ _ _ Hi)|..]; simpl.
    + by rewrite list_lookup_total_alter_ne.
    + intros s' _. by apply (alter_keeps potential).
    + done.
  - done.
  - done.
  - done.
  - rewrite list_lookup_total_alter_ne by done. apply Hi.
  - apply Hi.
Qed.

Lemma relax_outgoing_inv s x out : ∀ g,
  (∀ e, e ∈ out → e ∈ outgoing (ns0 !!! s)) →
  inv g → s ∈ changed_ g →
  pq_top (gamma_ g) = Some x →
  potential (nodes_ g !!! s) = (potential (ns0 !!! s) + upd_gamma x)%Z →
  ∃ g', relax_outgoing edges_ s out g = Ok g' ∧ inv g' ∧
    changed_ g' = changed_ g ∧ pq_top (gamma_ g') = Some x ∧
    work g' ≤ work g + length out.
Proof.
  induction out as [|st out IH]; intros g Hout Hi Hs Hx Hps; simpl.
  { exists g. split_and!; [done..|lia]. }
  assert (st ∈ outgoing (ns0 !!! s)) as Hst by (apply Hout, list_elem_of_here).
  destruct (Hwf0 _ _ Hst) as (Hste & _ & _).
  destruct (relax_edge_cases s st g Hste) as [[-> _]|(-> & Hc & Hlt)]; simpl.
  - destruct (IH g) as (g' & ? & ? & ? & ? & ?); [|done..|].
    { intros e ?. by apply Hout, list_elem_of_further. }
    exists g'. split_and!; [done..|lia].
  - destruct (update_gamma_inv g s st x Hi Hs Hst Hx Hps Hc Hlt) as (Hi' & Hx' & Hw).
    destruct (IH _ (λ e He, Hout e (list_elem_of_further _ _ _ He)) Hi' Hs Hx')
      as (g' & ? & ? & ? & ? & ?).
    { simpl. by rewrite (alter_keeps potential). }
    exists g'. split_and!; [done..|lia].
Qed.

Lemma work_mark g s :
  s < length (nodes_ g) → changed (nodes_ g !!! s) = false →
  work (mark_changed s g) + S (length (outgoing (nodes_ g !!! s))) = work g.
Proof.
  intros Hs Hc. unfold work, mark_changed. simpl.
  pose proof (sum_alter_at
    (λ n, if changed n then 0 else S (length (outgoing n)))
    (λ n, set_changed true (set_gamma 0
            (set_potential (potential n + gamma n) n)))
    s (nodes_ g) Hs) as Hsum.
  simpl in Hsum. rewrite Hc in Hsum. lia.
Qed.

Lemma pop_inv g x :
  inv g → pq_top (gamma_ g) = Some x →
  changed (nodes_ g !!! node_idx x) = true →
  inv (pop g) ∧ S (work (pop g)) = work g.
Proof.
  intros Hi Hx Hc. pose proof (pq_top_pop _ _ Hx) as Hperm.
  assert (∀ y, y ∈ pq_items (pq_pop (gamma_ g)) → y ∈ pq_items (gamma_ g)) as Hsub.
  { intros y Hy. rewrite Hperm. by apply list_elem_of_further. }
  split.
  2:{ unfold work, pop. simpl. rewrite Hperm. simpl. lia. }
  split; unfold pop; simpl; try apply Hi.
  - intros y Hy. by apply (si_items _ _ _ _ Hi), Hsub.
  - intros t Hn. destruct (si_gam _ _ _ _ Hi t Hn) as [?|[Hneg Hin]]; [auto|].
    right. split; [done|]. rewrite Hperm in Hin.
    apply elem_of_cons in Hin as [E|Hin]; [|done].
    rewrite <- E in Hc. simpl in Hc.
    apply (si_gam0 _ _ _ _ Hi) in Hc. lia.
  - intros Hnil y Hy. by apply (si_first _ _ _ _ Hi Hnil), Hsub.
Qed.

Lemma visit_top_inv g x :
  inv g → pq_top (gamma_ g) = Some x → gamma (nodes_ g !!! u) = 0%Z →
  ∃ g', visit_top edges_ g = Ok g' ∧ inv g' ∧ work g' < work g.
Proof.
  intros Hi Hx Hu0. unfold visit_top. rewrite Hx.
  destruct (changed (nodes_ g !!! node_idx x)) eqn:Hc; simpl.
  - destruct (pop_inv g x Hi Hx Hc) as [? ?]. exists (pop g).
    split_and!; [done|done|lia].
  - destruct (top_gamma _ _ Hi Hx Hc) as (Hg & Hneg & Hlt).
    rewrite Hg, Z.eqb_refl. simpl.
    pose proof (mark_inv g x Hi Hx Hc Hu0) as Hm.
    assert (Hlen := si_len _ _ _ _ Hi).
    destruct (relax_outgoing_inv (node_idx x) x
                (outgoing (nodes_ g !!! node_idx x))
                (mark_changed (node_idx x) g))
      as (g1 & -> & Hi1 & Hc1 & Hx1 & Hw1); simpl.
    + intros e. by rewrite (si_out _ _ _ _ Hi).
    + done.
    + rewrite elem_of_app, list_elem_of_singleton. auto.
    + done.
    + rewrite list_lookup_total_alter_eq by lia. simpl.
      rewrite (si_pot _ _ _ _ Hi _ Hc). lia.
    + destruct (pop_inv g1 x Hi1 Hx1) as [? ?].
      { apply (si_chg _ _ _ _ Hi1). rewrite Hc1. simpl.
        rewrite elem_of_app, list_elem_of_singleton. auto. }
      exists (pop g1). split_and!; [done|done|].
      pose proof (work_mark g (node_idx x) ltac:(lia) Hc). lia.
Qed.

(** The detection loop ends within [work g] turns, no assertion fails,
    and the invariant holds when it ends. *)
Lemma detect_inv fuel : ∀ g,
  work g ≤ fuel → inv g →
  ∃ g', detect edges_ fuel u g = Ok g' ∧ inv g' ∧
    (pq_top (gamma_ g') = None ∨ gamma (nodes_ g' !!! u) ≠ 0%Z).
Proof.
  induction fuel as [|fuel IH]; intros g Hw Hi; simpl.
  - destruct (pq_top (gamma_ g)) as [x|] eqn:Hx; [|by eauto].
    apply pq_top_elem in Hx. unfold work in Hw.
    destruct (pq_items (gamma_ g)); [by apply elem_of_nil in Hx|simpl in Hw; lia].
  - destruct (pq_top (gamma_ g)) as [x|] eqn:Hx; [|by eauto].
    destruct (Z.eqb_spec (gamma (nodes_ g !!! u)) 0) as [Hu0|Hu0]; simpl;
      [|by eauto].
    destruct (visit_top_inv g x Hi Hx Hu0) as (g1 & -> & Hi1 & Hw1). simpl.
    apply IH; [lia|done].
Qed.

Lemma relax_inv_cur c c' g : rinv c [] g → rinv c' [] g.
Proof.
  intros [? ? ? ? Hd]. split; try done.
  intros s e Hs He. destruct (Hd s e Hs He) as [[_ Hin]|?]; [|by right].
  by apply elem_of_nil in Hin.
Qed.

Lemma mark_relax c g x :
  inv g → rinv c [] g → pq_top (gamma_ g) = Some x →
  changed (nodes_ g !!! node_idx x) = false →
  rinv (node_idx x) (outgoing (ns0 !!! node_idx x))
       (mark_changed (node_idx x) g).
Proof.
  intros Hi Hr Hx Hc.
  destruct (top_gamma _ _ Hi Hx Hc) as (Hg & Hneg & Hlt).
  pose proof (pq_top_elem _ _ Hx) as Hxin.
  pose proof (si_pot _ _ _ _ Hi _ Hc) as Hps.
  pose proof (si_len _ _ _ _ Hi) as Hlen.
  assert (node_idx x ∉ changed_ g) as Hsc.
  { rewrite <- (si_chg _ _ _ _ Hi). congruence. }
  split; unfold mark_changed; simpl.
  - intros t. rewrite elem_of_app, list_elem_of_singleton. node_split.
    + destruct Hidx as [<- _]. intros _. lia.
    + intros [?|E]; [by apply Hr|]. destruct Hidx. split; [done|lia].
  - intros t. rewrite elem_of_app, list_elem_of_singleton. node_split.
    + destruct Hidx as [<- _]. intros _.
      pose proof (ri_low_items _ _ _ _ _ _ Hr x Hxin). lia.
    + intros [?|E]; [by apply Hr|]. destruct Hidx. split; [done|lia].
  - intros t y. rewrite elem_of_app, list_elem_of_singleton. node_split.
    + destruct Hidx as [<- _]. intros _ Hy.
      pose proof (pq_top_min _ _ _ Hx Hy). lia.
    + intros [?|E]; [by apply Hr|]. destruct Hidx. split; [done|lia].
  - apply Hr.
  - intros s e. rewrite elem_of_app, list_elem_of_singleton.
    intros [Hs| ->] He; [right|by left].
    destruct (ri_done _ _ _ _ _ _ Hr s e Hs He) as [[_ Hin]|Hrel];
      [by apply elem_of_nil in Hin|].
    assert (s ≠ node_idx x) as Hne by (by intros ->).
    unfold relaxed in *. simpl.
    rewrite (list_lookup_total_alter_ne _ _ _ s) by done.
    node_split.
    + destruct Hidx as [E _]. rewrite <- E in Hrel. rewrite Hc in Hrel. lia.
    + done.
Qed.

Lemma relax_edge_relax g s st rest x :
  inv g → rinv s (st :: rest) g → s ∈ changed_ g →
  st ∈ outgoing (ns0 !!! s) → pq_top (gamma_ g) = Some x →
  potential (nodes_ g !!! s) = (potential (ns0 !!! s) + upd_gamma x)%Z →
  ∃ g', relax_edge edges_ s st g = Ok g' ∧ rinv s rest g'.
Proof.
  intros Hi Hr Hs Hst Hx Hps.
  destruct (Hwf0 _ _ Hst) as (Hste & Hfrom & Hto).
  pose proof (Hfeas0 _ _ Hst) as Hrw.
  pose proof (pq_top_elem _ _ Hx) as Hxin.
  set (t := to (edges_ !!! st)) in *.
  destruct (relax_edge_cases s st g Hste) as [[-> Hor]|(-> & Hc & Hlt)];
    fold t in Hor || fold t in Hc, Hlt.
  - exists g. split; [done|]. split; try apply Hr.
    intros s' e' Hs' He'.
    destruct (ri_done _ _ _ _ _ _ Hr s' e' Hs' He') as [[-> Hin]|?]; [|by right].
    apply elem_of_cons in Hin as [ ->|Hin]; [right|by left].
    unfold relaxed. fold t.
    destruct (changed (nodes_ g !!! t)) eqn:Hc.
    + pose proof (ri_mono _ _ _ _ _ _ Hr t x) as Hm.
      rewrite <- (si_chg _ _ _ _ Hi) in Hm. specialize (Hm Hc Hxin). unfold t in *; lia.
    + destruct Hor as [?|Hle]; [done|].
      rewrite <- (si_pot _ _ _ _ Hi t Hc). unfold t in *; lia.
  - pose proof (si_pot _ _ _ _ Hi t Hc) as Hpt.
    eexists. split; [done|]. split; unfold update_gamma; simpl.
    + intros t'. rewrite (alter_keeps potential) by done. apply Hr.
    + intros t'. rewrite (alter_keeps potential) by done. apply Hr.
    + intros t' y Ht'. rewrite (alter_keeps potential) by done.
      rewrite pq_push_items, elem_of_cons. intros [ ->|Hy]; [|by apply Hr].
      simpl. pose proof (ri_mono _ _ _ _ _ _ Hr t' x Ht' Hxin). (unfold t in *; lia).
    + intros y. rewrite pq_push_items, elem_of_cons.
      intros [ ->|Hy]; [|by apply Hr].
      simpl. pose proof (ri_low_items _ _ _ _ _ _ Hr x Hxin). (unfold t in *; lia).
    + intros s' e' Hs' He'.
      assert (relaxed edges_ ns0 g s' e' →
              relaxed edges_ ns0 (update_gamma t st
                (potential (nodes_ g !!! s) + weight (edges_ !!! st)
                 - potential (nodes_ g !!! t)) g) s' e') as Hkeep.
      { unfold relaxed, update_gamma. simpl.
        rewrite !(alter_keeps potential), (alter_keeps changed) by done.
        destruct (changed (nodes_ g !!! to (edges_ !!! e'))); [done|].
        node_split; [|done]. destruct Hidx as [E _]. rewrite <- E. lia. }
      destruct (ri_done _ _ _ _ _ _ Hr s' e' Hs' He') as [[-> Hin]|?];
        [|right; by apply Hkeep].
      apply elem_of_cons in Hin as [ ->|Hin]; [right|by left].
      unfold relaxed. simpl. fold t.
      rewrite !(alter_keeps potential), (alter_keeps changed), Hc by done.
      rewrite list_lookup_total_alter_eq by (rewrite (si_len _ _ _ _ Hi); lia).
      simpl. (unfold t in *; lia).
Qed.

Lemma relax_outgoing_relax s x out : ∀ g,
  (∀ e, e ∈ out → e ∈ outgoing (ns0 !!! s)) →
  inv g → rinv s out g → s ∈ changed_ g →
  pq_top (gamma_ g) = Some x →
  potential (nodes_ g !!! s) = (potential (ns0 !!! s) + upd_gamma x)%Z →
  ∃ g', relax_outgoing edges_ s out g = Ok g' ∧ rinv s [] g'.
Proof.
  induction out as [|st out IH]; intros g Hout Hi Hr Hs Hx Hps; simpl.
  { by exists g. }
  assert (st ∈ outgoing (ns0 !!! s)) as Hst by (apply Hout, list_elem_of_here).
  destruct (relax_edge_relax g s st out x Hi Hr Hs Hst Hx Hps)
    as (g1 & Hg1 & Hr1).
  rewrite Hg1. simpl.
  destruct (Hwf0 _ _ Hst) as (Hste & _ & _).
  assert (inv g1 ∧ changed_ g1 = changed_ g ∧ pq_top (gamma_ g1) = Some x ∧
          potential (nodes_ g1 !!! s) = potential (nodes_ g !!! s))
    as (Hi1 & Hc1 & Hx1 & Hp1).
  { destruct (relax_edge_cases s st g Hste) as [[E _]|(E & Hc & Hlt)];
      rewrite E in Hg1; injection Hg1 as <-; [done|].
    destruct (update_gamma_inv g s st x
                Hi Hs Hst Hx Hps Hc Hlt) as (? & ? & _).
    split_and!; [done..|]. simpl. by rewrite (alter_keeps potential). }
  apply IH; try done.
  - intros e ?. by apply Hout, list_elem_of_further.
  - by rewrite Hc1.
  - by rewrite Hp1.
Qed.

Lemma pop_relax c g : rinv c [] g → pq_top (gamma_ g) ≠ None → rinv c [] (pop g).
Proof.
  intros Hr Hx. destruct (pq_top (gamma_ g)) as [x|] eqn:Hx'; [|done].
  pose proof (pq_top_pop _ _ Hx') as Hperm.
  split; unfold pop; simpl; try apply Hr.
  - intros t y Ht Hy. apply Hr; [done|]. rewrite Hperm.
    by apply list_elem_of_further.
  - intros y Hy. apply Hr. rewrite Hperm. by apply list_elem_of_further.
Qed.

Lemma visit_top_relax c g x :
  inv g → rinv c [] g → pq_top (gamma_ g) = Some x →
  gamma (nodes_ g !!! u) = 0%Z →
  ∃ g', visit_top edges_ g = Ok g' ∧ inv g' ∧ rinv c [] g' ∧ work g' < work g.
Proof.
  intros Hi Hr Hx Hu0.
  destruct (visit_top_inv g x Hi Hx Hu0)
    as (g' & Hv & Hi' & Hw).
  exists g'. split_and!; try done.
  revert Hv. unfold visit_top. rewrite Hx.
  destruct (changed (nodes_ g !!! node_idx x)) eqn:Hc; simpl.
  - intros [= <-]. apply pop_relax; [done|by rewrite Hx].
  - destruct (top_gamma _ _ Hi Hx Hc) as (Hg & Hneg & Hlt).
    rewrite Hg, Z.eqb_refl. simpl.
    pose proof (mark_inv g x Hi Hx Hc Hu0) as Hm.
    pose proof (mark_relax c g x Hi Hr Hx Hc) as Hmr.
    destruct (relax_outgoing_relax (node_idx x) x
                (outgoing (nodes_ g !!! node_idx x))
                (mark_changed (node_idx x) g))
      as (g1 & Hg1 & Hr1); simpl.
    + intros e. by rewrite (si_out _ _ _ _ Hi).
    + done.
    + by rewrite (si_out _ _ _ _ Hi).
    + rewrite elem_of_app, list_elem_of_singleton. auto.
    + done.
    + rewrite list_lookup_total_alter_eq by (rewrite (si_len _ _ _ _ Hi); lia).
      simpl. rewrite (si_pot _ _ _ _ Hi _ Hc). lia.
    + rewrite Hg1. simpl. intros [= <-].
      apply (relax_inv_cur (node_idx x)). apply pop_relax; [done|].
      destruct (relax_outgoing_inv
                  (node_idx x) x (outgoing (nodes_ g !!! node_idx x))
                  (mark_changed (node_idx x) g))
        as (g2 & Hg2 & _ & _ & Hx2 & _); simpl.
      * intros e. by rewrite (si_out _ _ _ _ Hi).
      * done.
      * rewrite elem_of_app, list_elem_of_singleton. auto.
      * done.
      * rewrite list_lookup_total_alter_eq by (rewrite (si_len _ _ _ _ Hi); lia).
        simpl. rewrite (si_pot _ _ _ _ Hi _ Hc). lia.
      * rewrite Hg1 in Hg2. injection Hg2 as <-. by rewrite Hx2.
Qed.

(** The detection loop ends, no assertion fails, and both invariants
    hold when it ends. *)
Lemma detect_relax c fuel : ∀ g,
  work g ≤ fuel → inv g → rinv c [] g →
  ∃ g', detect edges_ fuel u g = Ok g' ∧ inv g' ∧ rinv c [] g' ∧
    (pq_top (gamma_ g') = None ∨ gamma (nodes_ g' !!! u) ≠ 0%Z).
Proof.
  induction fuel as [|fuel IH]; intros g Hw Hi Hr; simpl.
  - destruct (pq_top (gamma_ g)) as [x|] eqn:Hx; [|by eauto 10].
    apply pq_top_elem in Hx. unfold work in Hw.
    destruct (pq_items (gamma_ g)); [by apply elem_of_nil in Hx|simpl in Hw; lia].
  - destruct (pq_top (gamma_ g)) as [x|] eqn:Hx; [|by eauto 10].
    destruct (Z.eqb_spec (gamma (nodes_ g !!! u)) 0) as [Hu0|Hu0]; simpl;
      [|by eauto 10].
    destruct (visit_top_relax c g x Hi Hr Hx Hu0) as (g1 & -> & Hi1 & Hr1 & Hw1).
    simpl. apply IH; [lia|done|done].
Qed.

(** When the loop has ended without lowering [u.gamma], nothing is left
    in the queue and no gamma is negative. *)
Lemma exit_settled g :
  inv g →
  pq_top (gamma_ g) = None ∨ gamma (nodes_ g !!! u) ≠ 0%Z →
  (0 <= gamma (nodes_ g !!! u))%Z →
  pq_items (gamma_ g) = [] ∧ ∀ t, (0 <= gamma (nodes_ g !!! t))%Z.
Proof.
  intros Hi Hexit Hu.
  assert (pq_items (gamma_ g) = []) as Hitems.
  { destruct Hexit as [Hnone|Hn]; [by apply pq_top_None|].
    destruct (si_gam _ _ _ _ Hi u Hn) as [[Huv Hpos]|[? _]]; [|lia].
    assert (changed_ g = []) as Hnil.
    { destruct (changed_ g) as [|c cs] eqn:Hcs; [done|].
      assert (v ∈ changed_ g) as Hv by (apply (si_v _ _ _ _ Hi); by rewrite Hcs).
      apply (si_chg _ _ _ _ Hi), (si_gam0 _ _ _ _ Hi) in Hv.
      rewrite <- Huv in Hv. lia. }
    destruct (pq_items (gamma_ g)) as [|y l] eqn:Hl; [done|].
    assert (y ∈ pq_items (gamma_ g)) as Hy by (rewrite Hl; apply list_elem_of_here).
    pose proof (si_first _ _ _ _ Hi Hnil y Hy) as Hyv.
    destruct (si_items _ _ _ _ Hi y Hy) as (_ & Hneg & [Hc|Hle]).
    - apply (si_chg _ _ _ _ Hi) in Hc. rewrite Hnil in Hc.
      by apply elem_of_nil in Hc.
    - rewrite Hyv, <- Huv in Hle. lia. }
  split; [done|]. intros t.
  destruct (Z.le_gt_cases 0 (gamma (nodes_ g !!! t))) as [|Hneg]; [done|].
  destruct (si_gam _ _ _ _ Hi t) as [[_ ?]|[_ Hin]]; [lia|lia|].
  rewrite Hitems in Hin. by apply elem_of_nil in Hin.
Qed.

(** Invariant 1 holds again, the new edge included, when the loop has
    ended without lowering [u.gamma]. *)
Lemma exit_feasible c g s e :
  inv g → rinv c [] g →
  pq_top (gamma_ g) = None ∨ gamma (nodes_ g !!! u) ≠ 0%Z →
  (0 <= gamma (nodes_ g !!! u))%Z →
  e ∈ outgoing (ns0 !!! s) ∨ (e = uv_idx ∧ s = u) →
  (0 <= potential (nodes_ g !!! s) + weight (edges_ !!! e)
        - potential (nodes_ g !!! to (edges_ !!! e)))%Z.
Proof.
  intros Hi Hr Hexit Hu He.
  destruct (exit_settled g Hi Hexit Hu) as [Hitems Hg0].
  assert (∀ t, changed (nodes_ g !!! t) = true ∨
               (changed (nodes_ g !!! t) = false ∧
                potential (nodes_ g !!! t) = potential (ns0 !!! t))) as Hcase.
  { intros t. destruct (changed (nodes_ g !!! t)) eqn:Hc; [by left|right].
    split; [done|]. by apply (si_pot _ _ _ _ Hi). }
  destruct He as [He|[-> ->]].
  - pose proof (Hfeas0 _ _ He) as Hrw.
    set (t := to (edges_ !!! e)) in *.
    destruct (Hcase s) as [Hs|[Hs Hps]], (Hcase t) as [Ht|[Ht Hpt]].
    + apply (si_chg _ _ _ _ Hi) in Hs.
      destruct (ri_done _ _ _ _ _ _ Hr s e Hs He) as [[_ Hin]|Hrel];
        [by apply elem_of_nil in Hin|].
      unfold relaxed in Hrel. fold t in Hrel. by rewrite Ht in Hrel.
    + apply (si_chg _ _ _ _ Hi) in Hs.
      destruct (ri_done _ _ _ _ _ _ Hr s e Hs He) as [[_ Hin]|Hrel];
        [by apply elem_of_nil in Hin|].
      unfold relaxed in Hrel. fold t in Hrel. rewrite Ht in Hrel.
      specialize (Hg0 t). lia.
    + apply (si_chg _ _ _ _ Hi) in Ht.
      pose proof (ri_neg _ _ _ _ _ _ Hr t Ht). lia.
    + lia.
  - assert (changed (nodes_ g !!! u) = false) as Huc.
    { destruct (Hcase u) as [Hc|[? _]]; [|done].
      apply (si_chg _ _ _ _ Hi) in Hc. by apply (si_u _ _ _ _ Hi) in Hc. }
    pose proof (si_pot _ _ _ _ Hi u Huc) as Hpu.
    destruct (Hcase v) as [Hv|[Hv Hpv]].
    + apply (si_chg _ _ _ _ Hi) in Hv.
      pose proof (si_root _ _ _ _ Hi (or_intror Hv)) as Hle.
      destruct (list_elem_of_lookup_1 _ _ Hv) as (k & Hk).
      destruct (si_chain _ _ _ _ Hi k v Hk) as (_ & _ & Hp & _).
      rewrite Hle in Hp. lia.
    + assert (changed_ g = []) as Hnil.
      { destruct (changed_ g) as [|c' cs] eqn:Hcs; [done|].
        assert (v ∈ changed_ g) as Hin by (apply (si_v _ _ _ _ Hi); by rewrite Hcs).
        apply (si_chg _ _ _ _ Hi) in Hin. congruence. }
      pose proof (si_start _ _ _ _ Hi Hnil) as Hst. specialize (Hg0 v). lia.
Qed.

(** A call lowers a potential by [- first_gamma] at most. *)
Lemma potential_bounds c g t :
  inv g → rinv c [] g →
  (potential (ns0 !!! t) + Z.min 0 (first_gamma edges_ uv_idx ns0)
   <= potential (nodes_ g !!! t) <= potential (ns0 !!! t))%Z.
Proof.
  intros Hi Hr. destruct (changed (nodes_ g !!! t)) eqn:Hc.
  - apply (si_chg _ _ _ _ Hi) in Hc.
    pose proof (ri_neg _ _ _ _ _ _ Hr t Hc).
    pose proof (ri_low _ _ _ _ _ _ Hr t Hc). lia.
  - rewrite (si_pot _ _ _ _ Hi t Hc). lia.
Qed.

(** The potentials of the two ends of the new edge when the loop has
    ended: [u] keeps its potential, and [v] is lowered exactly when
    [first_gamma] is negative and the edge is not a loop. *)
Lemma exit_ends c g :
  inv g → rinv c [] g →
  pq_top (gamma_ g) = None ∨ gamma (nodes_ g !!! u) ≠ 0%Z →
  potential (nodes_ g !!! u) = potential (ns0 !!! u) ∧
  potential (nodes_ g !!! v)
  = if decide ((first_gamma edges_ uv_idx ns0 < 0)%Z ∧ u ≠ v)
    then (potential (ns0 !!! u) + weight (edges_ !!! uv_idx))%Z
    else potential (ns0 !!! v).
Proof.
  intros Hi Hr Hexit.
  assert (changed (nodes_ g !!! u) = false) as Huc.
  { destruct (changed (nodes_ g !!! u)) eqn:Hc; [|done].
    apply (si_chg _ _ _ _ Hi) in Hc. by apply (si_u _ _ _ _ Hi) in Hc. }
  pose proof (si_pot _ _ _ _ Hi u Huc) as Hpu. split; [done|].
  unfold first_gamma.
  destruct (changed (nodes_ g !!! v)) eqn:Hvc.
  - apply (si_chg _ _ _ _ Hi) in Hvc.
    pose proof (si_root _ _ _ _ Hi (or_intror Hvc)) as Hle.
    destruct (list_elem_of_lookup_1 _ _ Hvc) as (k & Hk).
    destruct (si_chain _ _ _ _ Hi k v Hk) as (_ & _ & Hp & _).
    rewrite Hle in Hp. pose proof (ri_neg _ _ _ _ _ _ Hr v Hvc) as Hneg.
    assert (u ≠ v) as Huv.
    { intros E. rewrite <- E in Hvc. by apply (si_u _ _ _ _ Hi) in Hvc. }
    case_decide as Hd; [lia|]. destruct Hd. split; [lia|done].
  - rewrite (si_pot _ _ _ _ Hi v Hvc).
    case_decide as Hd; [|done]. destruct Hd as [Hneg Huv]. exfalso.
    assert (changed_ g = []) as Hnil.
    { destruct (changed_ g) as [|c' cs] eqn:Hcs; [done|].
      assert (v ∈ changed_ g) as Hin by (apply (si_v _ _ _ _ Hi); by rewrite Hcs).
      apply (si_chg _ _ _ _ Hi) in Hin. congruence. }
    pose proof (si_start _ _ _ _ Hi Hnil) as Hst.
    destruct (si_gam _ _ _ _ Hi v) as [[_ ?]|[_ Hin]]; [lia|lia|].
    destruct Hexit as [Hnone|Hn].
    + apply pq_top_None in Hnone. rewrite Hnone in Hin.
      by apply elem_of_nil in Hin.
    + destruct (si_gam _ _ _ _ Hi u Hn) as [[? _]|[_ Hin']]; [done|].
      by apply (si_first _ _ _ _ Hi Hnil) in Hin'.
Qed.

End Scan.

Section Gather.
Context {PQ : PriorityQueue} {PQL : PriorityQueueLaws PQ}.
Variable edges_ : list Edge.
Variable uv_idx : nat.
Variable ns0 : list DifferenceLogicNode.

Local Abbreviation u := (from (edges_ !!! uv_idx)).
Local Abbreviation v := (to (edges_ !!! uv_idx)).
Local Abbreviation w := (weight (edges_ !!! uv_idx)).
Local Abbreviation inv := (scan_inv edges_ uv_idx ns0).

Lemma gather_walk g : inv g → ∀ fuel i x acc,
  changed_ g !! i = Some x → i ≤ fuel →
  ∃ path,
    gather_cycle edges_ fuel (nodes_ g) v x acc = Ok (acc ++ path) ∧
    back_walk edges_ v x path ∧
    (∀ e, e ∈ path → e ∈ outgoing (ns0 !!! from (edges_ !!! e))) ∧
    cycle_weight edges_ path
    = (potential (nodes_ g !!! x) - potential (nodes_ g !!! v))%Z.
Proof.
  intros Hi. induction fuel as [|fuel IH]; intros i x acc Hix Hfuel.
  - assert (i = 0) as -> by lia.
    destruct (si_chain _ _ _ _ Hi 0 x Hix) as (_ & _ & _ & [[_ ->]|[Hin _]]).
    2:{ simpl in Hin. by apply elem_of_nil in Hin. }
    exists []. simpl. rewrite Nat.eqb_refl, app_nil_r.
    split_and!; [done|done|by intros e ?%elem_of_nil|lia].
  - simpl. destruct (Nat.eqb_spec v x) as [<-|Hne].
    { exists []. simpl. rewrite app_nil_r.
      split_and!; [done|done|by intros e ?%elem_of_nil|lia]. }
    destruct (si_chain _ _ _ _ Hi i x Hix)
      as (He & Hto & Hp & [[_ ->]|[Hin Hact]]); [done|].
    apply elem_of_take in Hin as (j & Hj & Hji).
    destruct (IH j _ (acc ++ [last_edge (nodes_ g !!! x)]) Hj ltac:(lia))
      as (path & -> & Hwalk & Hpath & Hsum).
    exists (last_edge (nodes_ g !!! x) :: path).
    rewrite <- app_assoc. simpl. split_and!; [done..| |lia].
    intros e [->|?]%elem_of_cons; auto.
Qed.

Lemma cycle_found g :
  inv g → (gamma (nodes_ g !!! u) < 0)%Z →
  ∃ rest,
    gather_cycle edges_ (length (changed_ g)) (nodes_ g) v
      (from (edges_ !!! last_edge (nodes_ g !!! v)))
      [last_edge (nodes_ g !!! v)] = Ok (uv_idx :: rest) ∧
    back_walk edges_ v u rest ∧
    (∀ e, e ∈ rest → e ∈ outgoing (ns0 !!! from (edges_ !!! e))) ∧
    cycle_weight edges_ (uv_idx :: rest) = gamma (nodes_ g !!! u).
Proof.
  intros Hi Hneg.
  assert (changed (nodes_ g !!! u) = false) as Huc.
  { destruct (changed (nodes_ g !!! u)) eqn:Hc; [|done].
    apply (si_gam0 _ _ _ _ Hi) in Hc. lia. }
  pose proof (si_pot _ _ _ _ Hi u Huc) as Hpu.
  destruct (si_pred _ _ _ _ Hi u Hneg) as (He & Hto & Hp & Hfrom).
  destruct (decide (u = v)) as [Huv|Huv].
  - rewrite <- Huv in *.
    assert (last_edge (nodes_ g !!! u) = uv_idx) as Hle.
    { rewrite Huv. apply (si_root _ _ _ _ Hi). left. by rewrite <- Huv. }
    rewrite Hle in *. exists [].
    destruct (length (changed_ g)); simpl; rewrite Nat.eqb_refl;
      (split_and!; [done|done|by intros e ?%elem_of_nil|lia]).
  - destruct Hfrom as [[_ ?]|[Hin Hact]]; [done|].
    assert (changed_ g ≠ []) as Hne.
    { intros E. rewrite E in Hin. by apply elem_of_nil in Hin. }
    pose proof (si_v _ _ _ _ Hi Hne) as Hv.
    pose proof (si_root _ _ _ _ Hi (or_intror Hv)) as Hle. rewrite Hle.
    destruct (list_elem_of_lookup_1 _ _ Hv) as (k & Hk).
    destruct (si_chain _ _ _ _ Hi k v Hk) as (_ & _ & Hpv & _).
    rewrite Hle in Hpv.
    destruct (list_elem_of_lookup_1 _ _ Hin) as (i & Hix).
    pose proof (lookup_lt_Some _ _ _ Hix) as Hilt.
    destruct (length (changed_ g)) as [|fuel] eqn:Hlen; [lia|].
    simpl. destruct (Nat.eqb_spec v u) as [?|_]; [done|].
    destruct (gather_walk g Hi fuel i _ [uv_idx; last_edge (nodes_ g !!! u)]
                Hix ltac:(lia)) as (path & -> & Hwalk & Hpath & Hsum).
    exists (last_edge (nodes_ g !!! u) :: path).
    split_and!; [done|done| |simpl; lia].
    intros e [->|?]%elem_of_cons; auto.
Qed.

End Gather.

(** ** The cleanup at the end of [add_edge] *)

Section Cleanup.
Context {PQ : PriorityQueue} {PQL : PriorityQueueLaws PQ}.

Lemma drain_keeps {B} (proj : DifferenceLogicNode → B) fuel : ∀ q ns t,
  (∀ z n, proj (set_gamma z n) = proj n) →
  proj ((drain fuel q ns).2 !!! t) = proj (ns !!! t).
Proof.
  induction fuel as [|fuel IH]; intros q ns t Hp; simpl; [done|].
  destruct (pq_top q); [|done]. rewrite IH by done. by apply alter_keeps.
Qed.

Lemma drain_length fuel : ∀ q ns, length (drain fuel q ns).2 = length ns.
Proof.
  induction fuel as [|fuel IH]; intros q ns; simpl; [done|].
  destruct (pq_top q); [|done]. by rewrite IH, length_alter.
Qed.

Lemma drain_zero fuel : ∀ q ns,
  length (pq_items q) ≤ fuel →
  (∀ t, gamma (ns !!! t) ≠ 0%Z → ∃ y, y ∈ pq_items q ∧ node_idx y = t) →
  pq_items (drain fuel q ns).1 = [] ∧
  ∀ t, gamma ((drain fuel q ns).2 !!! t) = 0%Z.
Proof.
  induction fuel as [|fuel IH]; intros q ns Hlen Hq.
  - simpl. destruct (pq_items q) as [|y l] eqn:Hitems; [|simpl in Hlen; lia].
    split; [done|]. intros t.
    destruct (decide (gamma (ns !!! t) = 0%Z)) as [|Hn]; [done|].
    destruct (Hq t Hn) as (y & Hy & _). by apply elem_of_nil in Hy.
  - simpl. destruct (pq_top q) as [x|] eqn:Hx.
    + pose proof (pq_top_pop _ _ Hx) as Hperm.
      apply IH.
      * rewrite Hperm in Hlen. simpl in Hlen. lia.
      * intros t. rewrite list_lookup_total_alter.
        case_decide as Hd; simpl; [done|]. intros Hn.
        destruct (Hq t Hn) as (y & Hy & Hyt). exists y. split; [|done].
        rewrite Hperm in Hy. apply elem_of_cons in Hy as [->|Hy]; [|done].
        destruct Hd. split; [done|]. rewrite Hyt. by apply gamma_lt.
    + apply pq_top_None in Hx. simpl. split; [done|]. intros t.
      destruct (decide (gamma (ns !!! t) = 0%Z)) as [|Hn]; [done|].
      destruct (Hq t Hn) as (y & Hy & _). rewrite Hx in Hy.
      by apply elem_of_nil in Hy.
Qed.

Lemma clear_changed_keeps {B} (proj : DifferenceLogicNode → B) xs : ∀ ns t,
  (∀ b n, proj (set_changed b n) = proj n) →
  proj (clear_changed xs ns !!! t) = proj (ns !!! t).
Proof.
  induction xs as [|x xs IH]; intros ns t Hp; simpl; [done|].
  unfold clear_changed in *. simpl. rewrite IH by done. by apply alter_keeps.
Qed.

Lemma clear_changed_length xs : ∀ ns,
  length (clear_changed xs ns) = length ns.
Proof.
  induction xs as [|x xs IH]; intros ns; simpl; [done|].
  unfold clear_changed in *. simpl. by rewrite IH, length_alter.
Qed.

Lemma clear_changed_false xs : ∀ ns,
  (∀ t, changed (ns !!! t) = true → t ∈ xs) →
  ∀ t, changed (clear_changed xs ns !!! t) = false.
Proof.
  induction xs as [|x xs IH]; intros ns Hc t.
  - simpl. destruct (changed (ns !!! t)) eqn:E; [|done].
    apply Hc in E. by apply elem_of_nil in E.
  - unfold clear_changed in *. simpl. apply IH. intros t'.
    rewrite list_lookup_total_alter. case_decide as Hd; simpl; [done|].
    intros E. pose proof (Hc t' E) as Hin.
    apply elem_of_cons in Hin as [->|?]; [|done].
    destruct Hd. split; [done|]. by apply changed_lt.
Qed.

Lemma cleanup_length v (g : DifferenceLogicGraph) :
  length (nodes_ (cleanup v g)) = length (nodes_ g).
Proof.
  unfold cleanup. simpl.
  by rewrite clear_changed_length, drain_length, length_alter.
Qed.

Lemma cleanup_keeps {B} (proj : DifferenceLogicNode → B) v
    (g : DifferenceLogicGraph) t :
  (∀ z n, proj (set_gamma z n) = proj n) →
  (∀ b n, proj (set_changed b n) = proj n) →
  proj (nodes_ (cleanup v g) !!! t) = proj (nodes_ g !!! t).
Proof.
  intros Hg Hc. unfold cleanup. simpl.
  rewrite clear_changed_keeps, drain_keeps by done. by apply alter_keeps.
Qed.

(** The cleanup leaves a clean scratch state when every gamma that is
    not 0 belongs to [v] or to a node in the queue, and every changed
    node is in [changed_]. *)
Lemma cleanup_clean v (g : DifferenceLogicGraph) :
  (∀ t, gamma (nodes_ g !!! t) ≠ 0%Z →
        t = v ∨ ∃ y, y ∈ pq_items (gamma_ g) ∧ node_idx y = t) →
  (∀ t, changed (nodes_ g !!! t) = true → t ∈ changed_ g) →
  pq_items (gamma_ (cleanup v g)) = [] ∧ changed_ (cleanup v g) = [] ∧
  ∀ t, gamma (nodes_ (cleanup v g) !!! t) = 0%Z ∧
       changed (nodes_ (cleanup v g) !!! t) = false.
Proof.
  intros Hg Hc. unfold cleanup. simpl.
  destruct (drain_zero (length (pq_items (gamma_ g))) (gamma_ g)
              (alter (set_gamma 0) v (nodes_ g))) as [Hq Hz]; [done| |].
  { intros t. rewrite list_lookup_total_alter.
    case_decide as Hd; simpl; [done|]. intros Hn.
    destruct (Hg t Hn) as [->|?]; [|done].
    destruct Hd. split; [done|]. by apply gamma_lt. }
  split_and!; [done|done|]. intros t. split.
  - by rewrite clear_changed_keeps.
  - apply clear_changed_false. intros t'.
    rewrite drain_keeps, (alter_keeps changed) by done. apply Hc.
Qed.

End Cleanup.

(** ** The nodes of the new edge *)

Lemma ensure_index_length c i :
  length (ensure_index c i) = Nat.max (length c) (S i).
Proof.
  unfold ensure_index. destruct (Nat.leb_spec (length c) i).
  - rewrite length_app, length_replicate. lia.
  - lia.
Qed.

Lemma ensure_index_lookup c i t : ensure_index c i !!! t = c !!! t.
Proof.
  unfold ensure_index. destruct (Nat.leb_spec (length c) i); [|done].
  destruct (decide (t < length c)) as [Hlt|Hge].
  - by rewrite lookup_total_app_l.
  - rewrite lookup_total_app_r by lia.
    rewrite (list_lookup_total_alt c), lookup_ge_None_2 by lia. simpl.
    rewrite list_lookup_total_alt.
    destruct (replicate _ _ !! _) as [n|] eqn:Hn; [|done].
    by apply lookup_replicate in Hn as [-> _].
Qed.

Lemma define_potential_length i ns :
  length (define_potential i ns) = length ns.
Proof.
  unfold define_potential. destruct (_ =? _)%Z; [|done]. apply length_alter.
Qed.

Lemma define_potential_keeps {B} (proj : DifferenceLogicNode → B) i ns t :
  (∀ p n, proj (set_potential p n) = proj n) →
  proj (define_potential i ns !!! t) = proj (ns !!! t).
Proof.
  intros Hp. unfold define_potential. destruct (_ =? _)%Z; [|done].
  by apply alter_keeps.
Qed.

Lemma define_potential_potential i ns t :
  potential (define_potential i ns !!! t)
  = if decide (t = i ∧ potential (ns !!! t) = undefined_potential ∧ t < length ns)
    then 0%Z else potential (ns !!! t).
Proof.
  unfold define_potential.
  destruct (Z.eqb_spec (potential (ns !!! i)) undefined_potential) as [He|Hne].
  - rewrite list_lookup_total_alter. repeat case_decide; simpl; try done.
    + destruct H as [<- ?]. by destruct H0.
    + destruct H0 as (-> & ? & ?). by destruct H.
  - case_decide as Hd; [|done]. by destruct Hd as (-> & ? & ?).
Qed.

Section Start.
Context {PQ : PriorityQueue} {PQL : PriorityQueueLaws PQ}.
Variable edges_ : list Edge.
Variable uv_idx : nat.
Variable g : DifferenceLogicGraph.

Local Abbreviation u := (from (edges_ !!! uv_idx)).
Local Abbreviation v := (to (edges_ !!! uv_idx)).
Local Abbreviation w := (weight (edges_ !!! uv_idx)).
Local Abbreviation ns0 := (init_nodes edges_ uv_idx (nodes_ g)).
Local Abbreviation gamma_v :=
  (potential (ns0 !!! u) + w - potential (ns0 !!! v))%Z.

Lemma init_nodes_length :
  length ns0 = Nat.max (length (nodes_ g)) (S (Nat.max u v)).
Proof.
  unfold init_nodes. by rewrite !define_potential_length, ensure_index_length.
Qed.

Lemma init_nodes_keeps {B} (proj : DifferenceLogicNode → B) t :
  (∀ p n, proj (set_potential p n) = proj n) →
  proj (ns0 !!! t) = proj (nodes_ g !!! t).
Proof.
  intros Hp. unfold init_nodes.
  by rewrite !define_potential_keeps, ensure_index_lookup.
Qed.

Lemma init_nodes_potential t :
  potential (ns0 !!! t)
  = if decide ((t = u ∨ t = v) ∧ potential (nodes_ g !!! t) = undefined_potential)
    then 0%Z else potential (nodes_ g !!! t).
Proof.
  unfold init_nodes.
  rewrite define_potential_potential, define_potential_length,
    ensure_index_length.
  rewrite !define_potential_potential, ensure_index_length,
    !ensure_index_lookup.
  repeat case_decide; try done; try lia; intuition (subst; (congruence || lia)).
Qed.

Hypothesis Huv : uv_idx < length edges_.
Hypothesis Hwf : ∀ s e, e ∈ outgoing (nodes_ g !!! s) →
  e < length edges_ ∧ from (edges_ !!! e) = s ∧
  to (edges_ !!! e) < length (nodes_ g).
Hypothesis Hqueue : pq_items (gamma_ g) = [].
Hypothesis Hchanged : changed_ g = [].
Hypothesis Hscratch : ∀ t,
  gamma (nodes_ g !!! t) = 0%Z ∧ changed (nodes_ g !!! t) = false.

Lemma init_nodes_wf s e :
  e ∈ outgoing (ns0 !!! s) →
  e < length edges_ ∧ from (edges_ !!! e) = s ∧ to (edges_ !!! e) < length ns0.
Proof.
  rewrite (init_nodes_keeps outgoing) by done. intros He.
  destruct (Hwf _ _ He) as (? & ? & ?). rewrite init_nodes_length.
  split_and!; [done|done|lia].
Qed.

Lemma start_inv : scan_inv edges_ uv_idx ns0 (start_edge edges_ uv_idx g).
Proof.
  pose proof init_nodes_length as Hlen.
  assert (v < length ns0) as Hv by lia.
  assert (∀ t, gamma (ns0 !!! t) = 0%Z) as Hg0.
  { intros t. rewrite (init_nodes_keeps gamma) by done. apply Hscratch. }
  assert (∀ t, changed (ns0 !!! t) = false) as Hc0.
  { intros t. rewrite (init_nodes_keeps changed) by done. apply Hscratch. }
  unfold start_edge. cbv zeta.
  destruct (Z.ltb_spec gamma_v 0) as [Hneg|Hpos];
    split; simpl; rewrite ?Hchanged, ?Hqueue, ?length_alter; try done.
  - intros t. by rewrite !(alter_keeps outgoing).
  - intros t. rewrite !(alter_keeps changed), Hc0 by done.
    split; [done|]. by intros ?%elem_of_nil.
  - intros t. by rewrite !(alter_keeps potential).
  - intros t. rewrite !(alter_keeps changed), Hc0 by done. done.
  - intros x. rewrite pq_push_items, Hqueue, list_elem_of_singleton.
    intros ->. simpl. split_and!; [done..|]. right.
    rewrite (alter_keeps gamma), list_lookup_total_alter_eq by done. done.
  - intros t. rewrite (alter_keeps gamma) by done. node_split.
    + destruct Hidx as [<- _]. intros _. right. split; [done|].
      rewrite pq_push_items. apply list_elem_of_here.
    + rewrite Hg0. done.
  - intros t. rewrite (alter_keeps gamma) by done. node_split.
    2:{ rewrite Hg0. lia. }
    destruct Hidx as [<- _]. intros _. unfold reached_by. simpl.
    rewrite list_lookup_total_alter_eq by (by rewrite length_alter).
    simpl. rewrite !(alter_keeps potential) by done.
    split_and!; [done|done|lia|by left].
  - intros _ x. rewrite pq_push_items, Hqueue, list_elem_of_singleton.
    by intros ->.
  - intros _. rewrite (alter_keeps gamma) by done.
    by rewrite list_lookup_total_alter_eq.
  - intros _. rewrite list_lookup_total_alter_eq by (by rewrite length_alter).
    done.
  - by intros ?%elem_of_nil.
  - intros t. by rewrite !(alter_keeps outgoing).
  - intros t. rewrite !(alter_keeps changed), Hc0 by done.
    split; [done|]. by intros ?%elem_of_nil.
  - intros t. by rewrite !(alter_keeps potential).
  - intros t. rewrite !(alter_keeps changed), Hc0 by done. done.
  - by intros x ?%elem_of_nil.
  - intros t. node_split.
    + destruct Hidx as [<- _]. intros ?. left. split; [done|lia].
    + by rewrite Hg0.
  - intros t. node_split; [lia|]. rewrite Hg0. lia.
  - by intros _ x ?%elem_of_nil.
  - intros _. by rewrite list_lookup_total_alter_eq.
  - rewrite list_lookup_total_alter_eq by done. simpl.
    intros [?|?%elem_of_nil]; [lia|done].
  - by intros ?%elem_of_nil.
Qed.

Hypothesis Hfeas : ∀ s e, e ∈ outgoing (nodes_ g !!! s) →
  (0 <= reduced_weight edges_ (nodes_ g) e)%Z.
Hypothesis Hdef : ∀ s e, e ∈ outgoing (nodes_ g !!! s) →
  potential (nodes_ g !!! from (edges_ !!! e)) ≠ undefined_potential ∧
  potential (nodes_ g !!! to (edges_ !!! e)) ≠ undefined_potential.

Lemma init_nodes_feasible s e :
  e ∈ outgoing (ns0 !!! s) →
  (0 <= potential (ns0 !!! s) + weight (edges_ !!! e)
        - potential (ns0 !!! to (edges_ !!! e)))%Z.
Proof.
  rewrite (init_nodes_keeps outgoing) by done. intros He.
  destruct (Hwf _ _ He) as (_ & Hfrom & _).
  destruct (Hdef _ _ He) as [Hs Ht]. rewrite Hfrom in Hs.
  pose proof (Hfeas _ _ He) as Hrw. unfold reduced_weight in Hrw.
  rewrite Hfrom in Hrw. rewrite !init_nodes_potential.
  repeat case_decide; try done; intuition congruence.
Qed.

Lemma start_relax c :
  relax_inv edges_ uv_idx ns0 c [] (start_edge edges_ uv_idx g).
Proof.
  unfold start_edge. cbv zeta. fold (first_gamma edges_ uv_idx ns0).
  destruct (Z.ltb_spec (first_gamma edges_ uv_idx ns0) 0) as [Hneg|Hpos];
    split; simpl; rewrite ?Hchanged, ?Hqueue;
    try (by intros ? ?%elem_of_nil); try (by intros ? ? ?%elem_of_nil).
  intros y. rewrite pq_push_items, Hqueue, list_elem_of_singleton.
  by intros ->.
Qed.

(** The detection loop of the call ends with both invariants. *)
Lemma detect_run :
  ∃ g1,
    detect edges_ (work (start_edge edges_ uv_idx g)) u
           (start_edge edges_ uv_idx g) = Ok g1 ∧
    scan_inv edges_ uv_idx ns0 g1 ∧
    relax_inv edges_ uv_idx ns0 0 [] g1 ∧
    (pq_top (gamma_ g1) = None ∨ gamma (nodes_ g1 !!! u) ≠ 0%Z).
Proof.
  eapply detect_relax; eauto using init_nodes_wf, init_nodes_feasible,
    start_inv, start_relax.
Qed.

(** What a call of [add_edge] does to a graph at quiescence: it returns,
    the scratch state is clean again, potentials have gone down by
    [- first_gamma] at most, and either a cycle through the new edge is
    returned, of the weight that [u.gamma] had, and no outgoing list has
    changed, or the edge is installed and invariant 1 holds. *)
Lemma add_edge_post :
  ∃ cyc g',
    add_edge edges_ uv_idx g = Ok (cyc, g') ∧
    pq_items (gamma_ g') = [] ∧ changed_ g' = [] ∧
    (∀ t, gamma (nodes_ g' !!! t) = 0%Z ∧ changed (nodes_ g' !!! t) = false) ∧
    length (nodes_ g') = length ns0 ∧
    (∀ t, (potential (ns0 !!! t) + Z.min 0 (first_gamma edges_ uv_idx ns0)
           <= potential (nodes_ g' !!! t) <= potential (ns0 !!! t))%Z) ∧
    potential (nodes_ g' !!! u) = potential (ns0 !!! u) ∧
    potential (nodes_ g' !!! v)
    = (if decide ((first_gamma edges_ uv_idx ns0 < 0)%Z ∧ u ≠ v)
       then (potential (ns0 !!! u) + w)%Z else potential (ns0 !!! v)) ∧
    ((∃ rest, cyc = uv_idx :: rest ∧ back_walk edges_ v u rest ∧
              (∀ e, e ∈ rest → e ∈ outgoing (nodes_ g !!! from (edges_ !!! e))) ∧
              (cycle_weight edges_ cyc < 0)%Z ∧
              ∀ t, outgoing (nodes_ g' !!! t) = outgoing (nodes_ g !!! t)) ∨
     (cyc = [] ∧
      (∀ t, outgoing (nodes_ g' !!! t)
            = if decide (t = u) then outgoing (nodes_ g !!! t) ++ [uv_idx]
              else outgoing (nodes_ g !!! t)) ∧
      ∀ s e, e ∈ outgoing (nodes_ g' !!! s) →
        (0 <= potential (nodes_ g' !!! s) + weight (edges_ !!! e)
              - potential (nodes_ g' !!! to (edges_ !!! e)))%Z)).
Proof.
  destruct detect_run as (g1 & Hdet & Hi & Hr & Hexit).
  pose proof init_nodes_length as Hlen0.
  pose proof (si_len _ _ _ _ Hi) as Hlen1.
  assert (∀ h, (∀ t, gamma (nodes_ h !!! t) = gamma (nodes_ g1 !!! t)) →
               (∀ t, changed (nodes_ h !!! t) = changed (nodes_ g1 !!! t)) →
               gamma_ h = gamma_ g1 → changed_ h = changed_ g1 →
               pq_items (gamma_ (cleanup v h)) = [] ∧
               changed_ (cleanup v h) = [] ∧
               (∀ t, gamma (nodes_ (cleanup v h) !!! t) = 0%Z ∧
                     changed (nodes_ (cleanup v h) !!! t) = false)) as Hclean.
  { intros h Hg Hc Hq Hch.
    apply cleanup_clean.
    - intros t. rewrite Hg, Hq. intros Hn.
      destruct (si_gam _ _ _ _ Hi t Hn) as [[? _]|[_ Hin]]; [by left|right].
      eexists. split; [exact Hin|done].
    - intros t. rewrite Hc, Hch. apply (si_chg _ _ _ _ Hi). }
  assert (Hends : potential (nodes_ g1 !!! u) = potential (ns0 !!! u) ∧
    potential (nodes_ g1 !!! v)
    = (if decide ((first_gamma edges_ uv_idx ns0 < 0)%Z ∧ u ≠ v)
       then (potential (ns0 !!! u) + w)%Z else potential (ns0 !!! v))).
  { eapply exit_ends; eauto using init_nodes_wf, init_nodes_feasible. }
  destruct Hends as [Hend_u Hend_v].
  unfold add_edge. cbv zeta. rewrite Hdet. simpl.
  destruct (Z.ltb_spec (gamma (nodes_ g1 !!! u)) 0) as [Hneg|Hpos].
  - destruct (cycle_found edges_ uv_idx ns0 g1 Hi Hneg)
      as (rest & -> & Hwalk & Hact & Hsum). simpl.
    destruct (Hclean g1) as (Hq & Hc & Hs); try done.
    eexists _, _. split; [done|]. split_and!; try done.
    + by rewrite cleanup_length.
    + intros t. rewrite (cleanup_keeps potential) by done.
      eapply potential_bounds; eauto using init_nodes_wf, init_nodes_feasible.
    + by rewrite (cleanup_keeps potential).
    + by rewrite (cleanup_keeps potential).
    + left. exists rest. split_and!; [done|done| |lia|].
      * intros e He. rewrite <- (init_nodes_keeps outgoing) by done. auto.
      * intros t. rewrite (cleanup_keeps outgoing) by done.
        rewrite (si_out _ _ _ _ Hi). by apply (init_nodes_keeps outgoing).
  - destruct (Hclean (install edges_ uv_idx g1)) as (Hq & Hc & Hs); try done.
    { intros t. by apply (alter_keeps gamma). }
    { intros t. by apply (alter_keeps changed). }
    eexists _, _. split; [done|]. split_and!; try done.
    + rewrite cleanup_length. simpl. by rewrite length_alter.
    + intros t. rewrite (cleanup_keeps potential) by done. simpl.
      rewrite (alter_keeps potential) by done.
      eapply potential_bounds; eauto using init_nodes_wf, init_nodes_feasible.
    + rewrite (cleanup_keeps potential) by done. simpl.
      by rewrite (alter_keeps potential).
    + rewrite (cleanup_keeps potential) by done. simpl.
      by rewrite (alter_keeps potential).
    + right. split; [done|].
      assert (∀ t, outgoing (nodes_ (cleanup v (install edges_ uv_idx g1)) !!! t)
                   = if decide (t = u)
                     then outgoing (nodes_ g !!! t) ++ [uv_idx]
                     else outgoing (nodes_ g !!! t)) as Hout.
      { intros t. rewrite (cleanup_keeps outgoing) by done. simpl.
        rewrite list_lookup_total_alter.
        destruct (decide (t = u)) as [->|Hne].
        - rewrite decide_True by (split; [done|lia]). simpl.
          by rewrite (si_out _ _ _ _ Hi), (init_nodes_keeps outgoing).
        - rewrite decide_False by (by intros [? _]).
          by rewrite (si_out _ _ _ _ Hi), (init_nodes_keeps outgoing). }
      split; [done|]. intros s e. rewrite Hout.
      rewrite !(cleanup_keeps potential) by done. simpl.
      rewrite !(alter_keeps potential) by done. intros He.
      eapply exit_feasible; eauto using init_nodes_wf, init_nodes_feasible.
      rewrite (init_nodes_keeps outgoing) by done.
      case_decide as Hsu; [|by left]. subst s.
      apply elem_of_app in He as [?|He]; [by left|right].
      by apply list_elem_of_singleton in He.
Qed.

End Start.

(** ** Scenarios *)

Example s1_first_two_edges :
  add_edges s1_edges [0; 1] new_graph = Ok ([[]; []], s1_graph).
Proof. reflexivity. Qed.

Example s1_third_edge :
  add_edge s1_edges 2 s1_graph = Ok ([2; 1; 0], s1_graph_after).
Proof. reflexivity. Qed.

Example s2_both_edges :
  add_edges s2_edges [0; 1] new_graph = Ok ([[]; []], s2_graph).
Proof. reflexivity. Qed.

Example s3_loop :
  ∃ g', add_edge (PQ := list_pq) s3_edges 0 new_graph = Ok ([0], g') ∧
        outgoing (nodes_ g' !!! 0) = [].
Proof. eexists. split; reflexivity. Qed.

Example s5_edge_after_reset :
  ∃ g1 g2,
    add_edge (PQ := list_pq) s5_edges 0 new_graph = Ok ([], g1) ∧
    add_edge s5_edges 1 (reset g1) = Ok ([], g2) ∧
    outgoing (nodes_ g2 !!! 1) = [1] ∧
    potential (nodes_ g2 !!! 0) = (-2)%Z ∧ potential (nodes_ g2 !!! 1) = 0%Z.
Proof. do 2 eexists. split_and!; reflexivity. Qed.

Example s7_edge : add_edge s7_edges 0 new_graph = Ok ([], s7_graph).
Proof. reflexivity. Qed.

(** Without the [reset] of [undo], the graph that a refused edge leaves
    is not at quiescence (b -> c has a negative reduced weight), and a
    further edge can leave scratch state behind: the entry of c is popped
    in place of the entry of b, and the gamma of c stays -2. *)
Example s9_edge_after_cycle :
  feasible s1_edges s1_graph_after = false ∧
  ∃ g', add_edge s9_edges 3 s1_graph_after = Ok ([], g') ∧
        gamma (nodes_ g' !!! 2) = (-2)%Z ∧
        scratch_clean g' = false.
Proof. split; [reflexivity|]. eexists. split_and!; reflexivity. Qed.

Example s8_both_edges :
  add_edges s8_edges [0; 1] new_graph = Ok ([[]; []], s8_graph).
Proof. reflexivity. Qed.

(** S1 through the propagator: the third literal closes the cycle and the
    host is handed the clause of the three negated literals. *)
Example s1_propagate :
  let o := propagate (PQ := list_pq) s1_propagator host_refuses host_refuses
                     [5; 6; 7]%Z new_state in
  o = Conflict [-7; -6; -5]%Z (outcome_state o) ∧
  edge_trail (outcome_state o) = [5; 6; 7]%Z ∧
  propagated (outcome_state o) = 2.
Proof. vm_compute. split_and!; reflexivity. Qed.

(** ** The invariants as propositions *)

Lemma all_outgoing_spec (P : nat → nat → bool) (ns : list DifferenceLogicNode) :
  all_outgoing P ns = true ↔
  ∀ s e, e ∈ outgoing (ns !!! s) → P s e = true.
Proof.
  unfold all_outgoing. rewrite forallb_forall. split.
  - intros Hall s e He. pose proof (outgoing_lt _ _ _ He) as Hs.
    specialize (Hall s). rewrite in_seq, forallb_forall in Hall.
    apply Hall; [lia|]. by apply list_elem_of_In.
  - intros Hall s _. apply forallb_forall. intros e He.
    apply Hall. by apply list_elem_of_In.
Qed.

Lemma nodes_forall_spec (P : DifferenceLogicNode → bool)
    (ns : list DifferenceLogicNode) :
  P new_node = true →
  forallb P ns = true ↔ ∀ t, P (ns !!! t) = true.
Proof.
  intros Hnew. rewrite forallb_forall. split.
  - intros Hall t. destruct (ns !! t) as [n|] eqn:Hn.
    + rewrite (list_lookup_total_correct _ _ _ Hn). apply Hall.
      apply list_elem_of_In. by eapply list_elem_of_lookup_2.
    + by rewrite list_lookup_total_alt, Hn.
  - intros Hall n Hn. apply list_elem_of_In, list_elem_of_lookup_1 in Hn as [t Ht].
    rewrite <- (list_lookup_total_correct _ _ _ Ht). apply Hall.
Qed.

Section Reflect.
Context {PQ : PriorityQueue} {PQL : PriorityQueueLaws PQ}.
Variable edges_ : list Edge.

Lemma scratch_clean_spec (g : DifferenceLogicGraph) :
  scratch_clean g = true ↔
  pq_items (gamma_ g) = [] ∧ changed_ g = [] ∧
  ∀ t, gamma (nodes_ g !!! t) = 0%Z ∧ changed (nodes_ g !!! t) = false.
Proof.
  unfold scratch_clean. rewrite !andb_true_iff, nodes_forall_spec by done.
  rewrite <- pq_top_None.
  split.
  - intros [[Hq Hc] Hn]. split_and!.
    + by destruct (pq_top (gamma_ g)).
    + by destruct (changed_ g).
    + intros t. specialize (Hn t). apply andb_true_iff in Hn as [Hg Hch].
      apply Z.eqb_eq in Hg. by destruct (changed (nodes_ g !!! t)).
  - intros (Hq & -> & Hn). rewrite Hq. split_and!; [done|done|].
    intros t. destruct (Hn t) as [-> ->]. done.
Qed.

(** What [quiescent] says, as the hypotheses of [add_edge_post]. *)
Lemma quiescent_facts (g : DifferenceLogicGraph) :
  quiescent edges_ g = true →
  (∀ s e, e ∈ outgoing (nodes_ g !!! s) →
     e < length edges_ ∧ from (edges_ !!! e) = s ∧
     to (edges_ !!! e) < length (nodes_ g)) ∧
  (pq_items (gamma_ g) = [] ∧ changed_ g = [] ∧
   ∀ t, gamma (nodes_ g !!! t) = 0%Z ∧ changed (nodes_ g !!! t) = false) ∧
  (∀ s e, e ∈ outgoing (nodes_ g !!! s) →
     (0 <= reduced_weight edges_ (nodes_ g) e)%Z) ∧
  (∀ s e, e ∈ outgoing (nodes_ g !!! s) →
     potential (nodes_ g !!! from (edges_ !!! e)) ≠ undefined_potential ∧
     potential (nodes_ g !!! to (edges_ !!! e)) ≠ undefined_potential).
Proof.
  unfold quiescent, wf_graph, feasible, active_defined.
  rewrite !andb_true_iff, !all_outgoing_spec, scratch_clean_spec.
  intros [[[Hwf Hsc] Hfe] Hde]. split; [|split; [done|split]].
  - intros s e He. specialize (Hwf s e He).
    rewrite !andb_true_iff, !Nat.ltb_lt, Nat.eqb_eq in Hwf. tauto.
  - intros s e He. specialize (Hfe s e He). by apply Z.leb_le in Hfe.
  - intros s e He. specialize (Hde s e He). unfold node_value_defined in Hde.
    rewrite andb_true_iff, !negb_true_iff, !Z.eqb_neq in Hde. done.
Qed.

(** The contract of [add_edge] on a graph at quiescence. *)
Lemma add_edge_contract (uv_idx : nat) (g : DifferenceLogicGraph) :
  quiescent edges_ g = true → uv_idx < length edges_ →
  let u := from (edges_ !!! uv_idx) in
  let v := to (edges_ !!! uv_idx) in
  let ns0 := init_nodes edges_ uv_idx (nodes_ g) in
  ∃ cyc g',
    add_edge edges_ uv_idx g = Ok (cyc, g') ∧
    scratch_clean g' = true ∧
    length (nodes_ g') = length ns0 ∧
    (∀ t, (potential (ns0 !!! t) + Z.min 0 (first_gamma edges_ uv_idx ns0)
           <= potential (nodes_ g' !!! t) <= potential (ns0 !!! t))%Z) ∧
    potential (nodes_ g' !!! u) = potential (ns0 !!! u) ∧
    potential (nodes_ g' !!! v)
    = (if decide ((first_gamma edges_ uv_idx ns0 < 0)%Z ∧ u ≠ v)
       then (potential (ns0 !!! u) + weight (edges_ !!! uv_idx))%Z
       else potential (ns0 !!! v)) ∧
    ((∃ rest, cyc = uv_idx :: rest ∧ back_walk edges_ v u rest ∧
              (∀ e, e ∈ rest → e ∈ outgoing (nodes_ g !!! from (edges_ !!! e))) ∧
              (cycle_weight edges_ cyc < 0)%Z ∧
              ∀ t, outgoing (nodes_ g' !!! t) = outgoing (nodes_ g !!! t)) ∨
     (cyc = [] ∧
      (∀ t, outgoing (nodes_ g' !!! t)
            = if decide (t = u) then outgoing (nodes_ g !!! t) ++ [uv_idx]
              else outgoing (nodes_ g !!! t)) ∧
      ∀ s e, e ∈ outgoing (nodes_ g' !!! s) →
        (0 <= potential (nodes_ g' !!! s) + weight (edges_ !!! e)
              - potential (nodes_ g' !!! to (edges_ !!! e)))%Z)).
Proof.
  intros Hq Huv u v ns0.
  destruct (quiescent_facts g Hq) as (Hwf & (Hqu & Hch & Hsc) & Hfe & Hde).
  destruct (add_edge_post edges_ uv_idx g Huv Hwf Hqu Hch Hsc Hfe Hde)
    as (cyc & g' & Hadd & Hq' & Hc' & Hs' & Hrest).
  exists cyc, g'. split; [done|]. split; [|exact Hrest].
  by apply scratch_clean_spec.
Qed.

End Reflect.

(** ** Cycles *)

Section CycleShape.
Variable edges_ : list Edge.

(** The node a walk stands at after [i] of its edges. *)
Lemma back_walk_lookup v : ∀ path x i e,
  back_walk edges_ v x path → path !! i = Some e →
  to (edges_ !!! e)
  = match i with
    | 0 => x
    | S j => from (edges_ !!! (path !!! j))
    end.
Proof.
  induction path as [|a path IH]; intros x i e Hw Hi; [done|].
  destruct Hw as (_ & Hto & Hw). destruct i as [|i]; simpl in *.
  - by injection Hi as <-.
  - rewrite (IH _ i e Hw Hi). by destruct i.
Qed.

Lemma back_walk_end v : ∀ path x,
  back_walk edges_ v x path →
  v = match length path with
      | 0 => x
      | S j => from (edges_ !!! (path !!! j))
      end.
Proof.
  induction path as [|a path IH]; intros x Hw; [done|].
  destruct Hw as (_ & _ & Hw). simpl. rewrite (IH _ Hw).
  by destruct (length path).
Qed.

(** A new edge from [u] to [v] followed by a walk from [u] back to [v]
    is a cycle listed against its direction. *)
Lemma back_walk_cycle uv_idx rest :
  back_walk edges_ (to (edges_ !!! uv_idx)) (from (edges_ !!! uv_idx)) rest →
  backward_cycle edges_ (uv_idx :: rest) = true.
Proof.
  intros Hw. unfold backward_cycle. apply forallb_forall. intros i Hi.
  apply in_seq in Hi. simpl in Hi. apply Nat.eqb_eq. unfold next_in_cycle.
  simpl length. destruct (decide (S i = S (length rest))) as [Hlast|Hmore].
  - rewrite Hlast, Nat.Div0.mod_same. simpl.
    pose proof (back_walk_end _ _ _ Hw) as Hend. injection Hlast as ->.
    by destruct (length rest).
  - rewrite Nat.mod_small by lia. simpl.
    destruct (rest !! i) as [e|] eqn:He.
    2:{ apply lookup_ge_None in He. lia. }
    rewrite (list_lookup_total_correct _ _ _ He).
    rewrite (back_walk_lookup _ _ _ _ _ Hw He). by destruct i.
Qed.

End CycleShape.

(** ** What [add_edge] promises *)

Section GraphClaims.
Context {PQ : PriorityQueue} {PQL : PriorityQueueLaws PQ}.
Variable edges_ : list Edge.





(** C4 (amended). When [add_edge] on a graph at quiescence returns a
    sequence that is not empty, the sequence is a directed cycle listed
    against its direction: it starts with the new edge, every other edge
    is an active edge, the 'from' end of each returned edge is the 'to'
    end of the next one, and the 'from' end of the last is the 'to' end of
    the first. *)
Theorem neg_cycle_backward
    (uv_idx : nat) (g g' : DifferenceLogicGraph) (neg_cycle : list nat) :
  quiescent edges_ g = true → uv_idx < length edges_ →
  add_edge edges_ uv_idx g = Ok (neg_cycle, g') → neg_cycle ≠ [] →
  backward_cycle edges_ neg_cycle = true ∧
  ∃ rest, neg_cycle = uv_idx :: rest ∧ ∀ e, e ∈ rest → active g e.
Proof.
  intros Hq Huv Hadd Hne.
  destruct (add_edge_contract edges_ uv_idx g Hq Huv)
    as (cyc & g2 & Hadd' & _ & _ & _ & _ & _ & Hcases).
  rewrite Hadd in Hadd'. injection Hadd' as <- <-.
  destruct Hcases as [(rest & -> & Hwalk & Hact & _)|(? & _)]; [|done].
  split; [by apply back_walk_cycle|].
  exists rest. split; [done|]. intros e He.
  exists (from (edges_ !!! e)). split; [|by apply Hact].
  eapply outgoing_lt. by apply Hact.
Qed.






(** C6 (amended). The first edge (u -> v, w) added to a graph that was
    just made or reset is installed unless it is a loop of negative
    weight: when w >= 0 both ends get potential 0; when w < 0 and u and v
    differ, u gets potential 0 and v gets potential w; when w < 0 and
    u = v, the edge is refused with the cycle of that one edge. *)
Theorem first_edge (uv_idx : nat) (g : DifferenceLogicGraph)
    (u v : nat) (w : Z) (l : literal_t) :
  empty g = true → scratch_clean g = true →
  edges_ !! uv_idx = Some {| from := u; to := v; weight := w; lit := l |} →
  ∃ g',
    add_edge edges_ uv_idx g
    = Ok (if decide ((w < 0)%Z ∧ u = v) then [uv_idx] else [], g') ∧
    potential (nodes_ g' !!! u) = 0%Z ∧
    potential (nodes_ g' !!! v)
    = (if decide ((w < 0)%Z ∧ u ≠ v) then w else 0%Z) ∧
    outgoing (nodes_ g' !!! u)
    = (if decide ((w < 0)%Z ∧ u = v) then [] else [uv_idx]).
Proof.
  intros Hempty Hclean Huv.
  assert (nodes_ g = []) as Hnil by (unfold empty in Hempty; by destruct (nodes_ g)).
  assert (quiescent edges_ g = true) as Hq.
  { unfold quiescent, wf_graph, feasible, active_defined, all_outgoing.
    rewrite Hclean, Hnil. done. }
  pose proof (lookup_lt_Some _ _ _ Huv) as Hlt.
  pose proof (list_lookup_total_correct _ _ _ Huv) as Hedge.
  destruct (add_edge_contract edges_ uv_idx g Hq Hlt)
    as (cyc & g' & Hadd & _ & _ & _ & Hpu & Hpv & Hcases).
  rewrite Hedge in Hpu, Hpv, Hcases. simpl in Hpu, Hpv, Hcases.
  assert (∀ t, t = u ∨ t = v →
            potential (init_nodes edges_ uv_idx (nodes_ g) !!! t) = 0%Z) as Hp0.
  { intros t Ht. rewrite (init_nodes_potential edges_ uv_idx g), Hedge, Hnil.
    simpl. by rewrite decide_True. }
  assert (first_gamma edges_ uv_idx (init_nodes edges_ uv_idx (nodes_ g)) = w)
    as Hfg.
  { unfold first_gamma. rewrite Hedge. simpl. rewrite !Hp0 by auto. lia. }
  rewrite Hfg in Hpv. rewrite !Hp0 in Hpv by auto. rewrite Hp0 in Hpu by auto.
  exists g'. rewrite Hadd.
  destruct Hcases as [(rest & -> & Hwalk & Hact & Hneg & Hout)|(-> & Hout & Hfe)].
  - destruct rest as [|e rest].
    2:{ specialize (Hact e (list_elem_of_here _ _)). rewrite Hnil in Hact.
        by apply elem_of_nil in Hact. }
    simpl in Hwalk, Hneg. rewrite Hedge in Hneg. simpl in Hneg.
    rewrite Hout, Hnil, Hpv, Hpu.
    repeat case_decide; split_and!; try done; intuition lia.
  - assert (¬ ((w < 0)%Z ∧ u = v)) as Hno.
    { intros [Hw <-]. specialize (Hfe u uv_idx). rewrite Hout in Hfe.
      rewrite decide_True, Hedge in Hfe by done. simpl in Hfe.
      specialize (Hfe ltac:(apply elem_of_app; right; apply list_elem_of_here)).
      lia. }
    rewrite Hout, Hnil, Hpv, Hpu.
    repeat case_decide; split_and!; try done; intuition lia.
Qed.

End GraphClaims.
(** ** The table of the literals *)

Lemma emplace_front_perm k v m : emplace_front k v m ≡ₚ (k, v) :: m.
Proof.
  induction m as [|kv m IH]; simpl; [done|].
  destruct (kv.1 =? k)%Z; [done|]. rewrite IH. apply Permutation_swap.
Qed.

Lemma emplace_front_grouped k v m : grouped m → grouped (emplace_front k v m).
Proof.
  induction m as [|kv m IH]; simpl.
  - intros _. split; [done|]. by intros ?%elem_of_nil.
  - intros [Hm Hkv]. destruct (kv.1 =? k)%Z eqn:Hk.
    + apply Z.eqb_eq in Hk. simpl. split_and!; eauto.
    + apply Z.eqb_neq in Hk. simpl. split; [by apply IH|].
      rewrite emplace_front_perm. simpl. intros Hin%elem_of_cons.
      destruct Hin as [?|Hin]; [done|].
      destruct (Hkv Hin) as (kv' & m' & -> & Heq). simpl.
      assert ((kv'.1 =? k)%Z = false) as -> by (apply Z.eqb_neq; congruence).
      eauto.
Qed.

Lemma gnu_multimap_laws : UnorderedMultimapLaws gnu_multimap.
Proof.
  split; [apply emplace_front_perm | apply emplace_front_grouped].
Qed.

Lemma filter_key_absent (l : literal_t) (m : list (literal_t * nat)) :
  l ∉ m.*1 → filter (λ kv, kv.1 = l) m = [].
Proof.
  induction m as [|kv m IH]; [done|]. simpl. intros Hl.
  apply not_elem_of_cons in Hl as [Hne Hl].
  rewrite filter_cons_False by congruence. by apply IH.
Qed.

Lemma equal_run_filter (l : literal_t) (m : list (literal_t * nat)) :
  grouped m →
  (l ∈ m.*1 → ∃ kv m', m = kv :: m' ∧ kv.1 = l) →
  equal_run l m = (filter (λ kv, kv.1 = l) m).*2.
Proof.
  induction m as [|kv m IH]; [done|]. simpl. intros [Hm Hkv] Hhead.
  destruct (kv.1 =? l)%Z eqn:Hk.
  - apply Z.eqb_eq in Hk. rewrite filter_cons_True by done. simpl.
    f_equal. apply IH; [done|]. by rewrite <- Hk.
  - apply Z.eqb_neq in Hk. rewrite filter_key_absent; [done|].
    intros Hin. destruct (Hhead Hin) as (kv' & m' & [= <- <-] & ?). done.
Qed.

Lemma edges_for_filter (l : literal_t) (m : list (literal_t * nat)) :
  grouped m → edges_for l m = (filter (λ kv, kv.1 = l) m).*2.
Proof.
  unfold edges_for. induction m as [|kv m IH]; [done|]. intros Hg.
  simpl. destruct (kv.1 =? l)%Z eqn:Hk.
  - apply equal_run_filter; [done|]. apply Z.eqb_eq in Hk. eauto.
  - apply Z.eqb_neq in Hk. rewrite filter_cons_False by done.
    apply IH, Hg.
Qed.

Lemma registrations_snoc (es : list Edge) (e : Edge) :
  registrations (es ++ [e]) = registrations es ++ [(lit e, length es)].
Proof.
  unfold registrations. rewrite imap_app. simpl. by rewrite Nat.add_0_r.
Qed.

Lemma elem_of_registered (l : literal_t) (es : list Edge) (i : nat) :
  i ∈ registered l es ↔ ∃ e, es !! i = Some e ∧ lit e = l.
Proof.
  unfold registered, registrations. rewrite list_elem_of_fmap. split.
  - intros ([k j] & -> & [Hk Hin]%list_elem_of_filter). simpl in *.
    apply elem_of_lookup_imap in Hin as (i & e & [= -> ->] & He). eauto.
  - intros (e & He & Hl). exists (l, i). split; [done|].
    apply list_elem_of_filter. split; [done|].
    apply elem_of_lookup_imap. exists i, e. by rewrite Hl.
Qed.

Lemma map_vert_tables name p :
  lit_to_edges_ (map_vert name p).2 = lit_to_edges_ p ∧
  edges_ (map_vert name p).2 = edges_ p.
Proof. unfold map_vert. by destruct (vert_map_inv_ p !! name). Qed.

Section InitTable.
Context {MM : UnorderedMultimap} {MML : UnorderedMultimapLaws MM}.

Lemma add_edge_atom_table atom p : table_ok p → table_ok (add_edge_atom atom p).
Proof.
  intros [Hg Hp]. unfold add_edge_atom.
  destruct (map_vert (atom_u atom) p) as [u_id p1] eqn:E1.
  destruct (map_vert (atom_v atom) p1) as [v_id p2] eqn:E2.
  pose proof (map_vert_tables (atom_u atom) p) as [Hm1 He1].
  pose proof (map_vert_tables (atom_v atom) p1) as [Hm2 He2].
  rewrite E1 in Hm1, He1. rewrite E2 in Hm2, He2. simpl in *.
  rewrite Hm2, Hm1, He2, He1. split; simpl.
  - by apply mm_emplace_grouped.
  - rewrite registrations_snoc, mm_emplace_perm, Hp. simpl.
    by rewrite Permutation_cons_append.
Qed.

Lemma init_table atoms : ∀ p, table_ok p → table_ok (init atoms p).
Proof.
  unfold init. induction atoms as [|atom atoms IH]; [done|]. simpl.
  intros p Hp. apply IH. destruct (String.eqb _ _); [|done].
  by apply add_edge_atom_table.
Qed.

Lemma new_propagator_table : table_ok new_propagator.
Proof. by split. Qed.

End InitTable.

Section TableClaims.
Context {MM : UnorderedMultimap} {MML : UnorderedMultimapLaws MM}.

(** C7 (amended). For every literal, the lookup of the edges it controls
    yields every registered edge whose controlling literal is that
    literal, each once; the order in which it yields them is that of the
    unordered multimap and need not be the registration order. *)
Theorem edges_for_registered (atoms : list TheoryAtom) (l : literal_t) :
  let p := init atoms new_propagator in
  edges_for l (lit_to_edges_ p) ≡ₚ registered l (edges_ p) ∧
  ∀ i, i ∈ edges_for l (lit_to_edges_ p) ↔
       ∃ e, edges_ p !! i = Some e ∧ lit e = l.
Proof.
  intros p. destruct (init_table atoms _ new_propagator_table) as [Hg Hp].
  fold p in Hg, Hp.
  assert (edges_for l (lit_to_edges_ p) ≡ₚ registered l (edges_ p)) as Hperm.
  { rewrite edges_for_filter by done. unfold registered. by rewrite Hp. }
  split; [done|]. intros i. rewrite Hperm. apply elem_of_registered.
Qed.

End TableClaims.

Lemma edges_for_registered_shared :
  edges_for 7%Z (lit_to_edges_ shared_propagator)
    ≡ₚ registered 7%Z (edges_ shared_propagator) ∧
  ∀ i, i ∈ edges_for 7%Z (lit_to_edges_ shared_propagator) ↔
       ∃ e, edges_ shared_propagator !! i = Some e ∧ lit e = 7%Z.
Proof.
  exact (edges_for_registered (MML := gnu_multimap_laws)
           shared_literal_atoms 7%Z).
Defined.

Lemma edges_for_reverse_order :
  edges_for 7%Z (lit_to_edges_ shared_propagator) = [1; 0] ∧
  registered 7%Z (edges_ shared_propagator) = [0; 1] ∧
  edges_for 7%Z (lit_to_edges_ shared_propagator)
    ≠ registered 7%Z (edges_ shared_propagator).
Proof. split_and!; [reflexivity | reflexivity | discriminate]. Qed.

Section PropagateClaims.
Context {PQ : PriorityQueue}.
Variable p : DifferenceLogicPropagator.
Variable ctl_add_clause ctl_propagate : list literal_t → bool.

Local Abbreviation edges_of := (add_edges_of p ctl_add_clause ctl_propagate).
Local Abbreviation loop := (check_loop p ctl_add_clause ctl_propagate).
Local Abbreviation run := (propagate p ctl_add_clause ctl_propagate).

Lemma add_edges_of_trail it : ∀ st,
  match edges_of it st with
  | inl st' => edge_trail st' = edge_trail st ∧ propagated st' = propagated st
  | inr o => edge_trail (outcome_state o) = edge_trail st ∧ from_cycle p o
  end.
Proof.
  induction it as [|eid it IH]; intros st; simpl; [done|].
  destruct (add_edge (edges_ p) eid (dl_graph st)) as [[cyc g]| |] eqn:Hadd;
    [|done..].
  destruct cyc as [|e cyc].
  - specialize (IH (with_graph g st)). by destruct (edges_of it _).
  - destruct (negb _ || negb _); (split; [done|]); simpl;
      by exists eid, (dl_graph st), (e :: cyc).
Qed.

Lemma check_loop_trail fuel : ∀ st,
  edge_trail (outcome_state (loop fuel st)) = edge_trail st ∧
  from_cycle p (loop fuel st).
Proof.
  induction fuel as [|fuel IH]; intros st; simpl.
  - by destruct (propagated st <? length (edge_trail st)).
  - destruct (propagated st <? length (edge_trail st)); [|done].
    pose proof (add_edges_of_trail
                  (edges_for (edge_trail st !!! propagated st)
                             (lit_to_edges_ p)) st) as Hstep.
    destruct (edges_of _ st) as [st'|o]; [|done].
    destruct Hstep as [Ht _]. rewrite <- Ht.
    apply (IH {| edge_trail := edge_trail st'; dl_graph := dl_graph st';
                 propagated := S (propagated st') |}).
Qed.

(** The edge that closes a cycle ends the loop with the clause of the
    cycle. *)
Lemma cycle_is_reported
    (eid : nat) (it : list nat) (st : DLState)
    (neg_cycle : list nat) (g : DifferenceLogicGraph) :
  add_edge (edges_ p) eid (dl_graph st) = Ok (neg_cycle, g) →
  neg_cycle ≠ [] →
  let clause := conflict_clause p neg_cycle in
  edges_of (eid :: it) st
  = inr (if negb (ctl_add_clause clause) || negb (ctl_propagate clause)
         then Conflict clause (with_graph g st)
         else MustNotHappen clause (with_graph g st)).
Proof.
  intros Hadd Hne clause. simpl. rewrite Hadd.
  destruct neg_cycle; [congruence|]. unfold clause.
  by destruct (negb _ || negb _).
Qed.

(** C5 (amended). For every call of [propagate], the trail is a sequence
    of literals: each literal of [changes] is appended to [edge_trail] as
    one entry, whatever the number of edges it controls. *)
Theorem propagate_appends_literals (changes : list literal_t) (st : DLState) :
  edge_trail (outcome_state (run changes st)) = edge_trail st ++ changes.
Proof. unfold propagate, check_consistency. apply check_loop_trail. Qed.


End PropagateClaims.

(** ** The scenarios *)






(** S1: the cycle c -> a, b -> c, a -> b is listed against its direction. *)
Lemma s1_neg_cycle_backward :
  backward_cycle s1_edges [2; 1; 0] = true ∧
  ∃ rest, [2; 1; 0] = 2 :: rest ∧ ∀ e, e ∈ rest → active s1_graph e.
Proof.
  apply (neg_cycle_backward (PQL := list_pq_laws)
           s1_edges 2 s1_graph s1_graph_after [2; 1; 0]).
  - reflexivity.
  - simpl. lia.
  - reflexivity.
  - discriminate.
Defined.

(** S1: walked in the order returned, the cycle does not connect: c -> a
    ends in a and b -> c starts in b. *)
Lemma s1_cycle_not_forward :
  quiescent s1_edges s1_graph = true ∧
  add_edge s1_edges 2 s1_graph = Ok ([2; 1; 0], s1_graph_after) ∧
  to (s1_edges !!! 2) ≠ from (s1_edges !!! 1) ∧
  forward_cycle s1_edges [2; 1; 0] = false.
Proof. split_and!; [reflexivity|reflexivity|discriminate|reflexivity]. Qed.

(** A literal of two edges is one entry of the trail. *)
Lemma shared_literal_one_entry :
  edge_trail (outcome_state
    (propagate (PQ := list_pq) shared_propagator host_refuses host_refuses
               [7%Z] new_state)) = [7%Z] ∧
  trail_of_edges (lit_to_edges_ shared_propagator) [] [7%Z] = [1%Z; 0%Z] ∧
  length (edge_trail (outcome_state
    (propagate (PQ := list_pq) shared_propagator host_refuses host_refuses
               [7%Z] new_state)))
  ≠ length (trail_of_edges (lit_to_edges_ shared_propagator) [] [7%Z]).
Proof. vm_compute. split_and!; [reflexivity|reflexivity|discriminate]. Qed.

(** S7: the first edge a -> b of weight -1 is installed. *)
Lemma s7_first_edge :
  ∃ g',
    add_edge (PQ := list_pq) s7_edges 0 new_graph = Ok ([], g') ∧
    potential (nodes_ g' !!! 0) = 0%Z ∧
    potential (nodes_ g' !!! 1) = (-1)%Z ∧
    outgoing (nodes_ g' !!! 0) = [0].
Proof.
  apply (first_edge (PQL := list_pq_laws) s7_edges 0 new_graph 0 1 (-1)%Z 5%Z);
    reflexivity.
Defined.

(** S7: a first edge of negative weight is not refused, and its 'to' end
    gets the potential -1. *)
Lemma s7_negative_first_edge_installed :
  empty (PQ := list_pq) new_graph = true ∧
  (weight (s7_edges !!! 0%nat) < 0)%Z ∧
  add_edge s7_edges 0 new_graph = Ok ([], s7_graph) ∧
  outgoing (nodes_ s7_graph !!! 0) = [0] ∧
  potential (nodes_ s7_graph !!! 1) ≠ 0%Z.
Proof. split_and!; [reflexivity..|discriminate]. Qed.





(** ** More of the consistency graph *)

Section Frame.
Context {PQ : PriorityQueue}.
Variable edges_ : list Edge.


Lemma same_out_refl ns : same_out ns ns.
Proof. by split. Qed.

Lemma same_out_trans ns1 ns2 ns3 :
  same_out ns1 ns2 → same_out ns2 ns3 → same_out ns1 ns3.
Proof.
  intros [Hl1 Ho1] [Hl2 Ho2]. split; [congruence|].
  intros t. by rewrite Ho2, Ho1.
Qed.

Lemma same_out_alter f i ns :
  (∀ n, outgoing (f n) = outgoing n) → same_out ns (alter f i ns).
Proof.
  intros Hf. split; [apply length_alter|].
  intros t. by apply (alter_keeps outgoing).
Qed.

Lemma start_edge_same_out uv_idx (g : DifferenceLogicGraph) :
  same_out (init_nodes edges_ uv_idx (nodes_ g))
           (nodes_ (start_edge edges_ uv_idx g)).
Proof.
  unfold start_edge. cbv zeta. destruct (_ <? 0)%Z; simpl.
  - eapply same_out_trans; by apply same_out_alter.
  - by apply same_out_alter.
Qed.

Lemma relax_edge_same_out s st (g g' : DifferenceLogicGraph) :
  relax_edge edges_ s st g = Ok g' → same_out (nodes_ g) (nodes_ g').
Proof.
  unfold relax_edge. destruct (negb _); [done|]. cbv zeta.
  destruct (changed _); [intros [= <-]; apply same_out_refl|].
  destruct (_ <? _)%Z; intros [= <-]; [|apply same_out_refl].
  by apply same_out_alter.
Qed.

Lemma relax_outgoing_same_out s out : ∀ (g g' : DifferenceLogicGraph),
  relax_outgoing edges_ s out g = Ok g' → same_out (nodes_ g) (nodes_ g').
Proof.
  induction out as [|st out IH]; intros g g'; simpl.
  - intros [= <-]. apply same_out_refl.
  - destruct (relax_edge edges_ s st g) as [g1| |] eqn:E; simpl; [|done..].
    intros Hrest. eapply same_out_trans; [by eapply relax_edge_same_out|].
    by apply IH.
Qed.

Lemma visit_top_same_out (g g' : DifferenceLogicGraph) :
  visit_top edges_ g = Ok g' → same_out (nodes_ g) (nodes_ g').
Proof.
  unfold visit_top. destruct (pq_top (gamma_ g)) as [top|];
    [|intros [= <-]; apply same_out_refl].
  cbv zeta. destruct (changed _); simpl.
  { intros [= <-]. apply same_out_refl. }
  destruct (negb _); [done|].
  destruct (relax_outgoing _ _ _ _) as [g1| |] eqn:E; simpl; [|done..].
  intros [= <-]. simpl. apply relax_outgoing_same_out in E.
  eapply same_out_trans; [|exact E]. by apply same_out_alter.
Qed.

Lemma detect_same_out fuel u : ∀ (g g' : DifferenceLogicGraph),
  detect edges_ fuel u g = Ok g' → same_out (nodes_ g) (nodes_ g').
Proof.
  induction fuel as [|fuel IH]; intros g g'; simpl.
  - destruct (pq_top _); [|intros [= <-]; apply same_out_refl].
    destruct (negb _); [intros [= <-]; apply same_out_refl|done].
  - destruct (pq_top _); [|intros [= <-]; apply same_out_refl].
    destruct (negb _); [intros [= <-]; apply same_out_refl|].
    destruct (visit_top edges_ g) as [g1| |] eqn:E; simpl; [|done..].
    intros Hrest. eapply same_out_trans; [by eapply visit_top_same_out|].
    by apply IH.
Qed.

Lemma cleanup_same_out v (g : DifferenceLogicGraph) :
  same_out (nodes_ g) (nodes_ (cleanup v g)).
Proof.
  split; [apply cleanup_length|]. intros t. by apply (cleanup_keeps outgoing).
Qed.

Lemma init_nodes_same_out uv_idx (g : DifferenceLogicGraph) t :
  outgoing (init_nodes edges_ uv_idx (nodes_ g) !!! t)
  = outgoing (nodes_ g !!! t).
Proof. by apply (init_nodes_keeps edges_ uv_idx g outgoing). Qed.

Lemma gather_cycle_nonempty fuel ns v : ∀ next acc cyc,
  gather_cycle edges_ fuel ns v next acc = Ok cyc → acc ≠ [] → cyc ≠ [].
Proof.
  induction fuel as [|fuel IH]; intros next acc cyc; simpl.
  - destruct (v =? next); [by intros [= <-]|done].
  - destruct (v =? next); [by intros [= <-]|].
    intros Hg Hacc. eapply IH; [exact Hg|]. by destruct acc.
Qed.

(** The outgoing lists change by the installed edge only, on any graph. *)
Lemma add_edge_frame (uv_idx : nat) (g g' : DifferenceLogicGraph)
    (neg_cycle : list nat) :
  add_edge edges_ uv_idx g = Ok (neg_cycle, g') →
  length (nodes_ g')
  = Nat.max (length (nodes_ g))
            (S (Nat.max (from (edges_ !!! uv_idx)) (to (edges_ !!! uv_idx)))) ∧
  ∀ t, outgoing (nodes_ g' !!! t)
       = if decide (neg_cycle = [] ∧ t = from (edges_ !!! uv_idx))
         then outgoing (nodes_ g !!! t) ++ [uv_idx]
         else outgoing (nodes_ g !!! t).
Proof.
  unfold add_edge. cbv zeta.
  destruct (detect _ _ _ _) as [g1| |] eqn:Hdet; simpl; [|done..].
  apply detect_same_out in Hdet.
  pose proof (start_edge_same_out uv_idx g) as Hstart.
  destruct (same_out_trans _ _ _ Hstart Hdet) as [Hlen Hout].
  pose proof (init_nodes_length edges_ uv_idx g) as Hlen0.
  destruct (_ <? 0)%Z.
  - destruct (gather_cycle _ _ _ _ _ _) as [cyc| |] eqn:Hg; simpl; [|done..].
    intros [= <- <-]. apply gather_cycle_nonempty in Hg; [|done].
    destruct (cleanup_same_out (to (edges_ !!! uv_idx)) g1) as [Hl Ho].
    split; [congruence|]. intros t.
    rewrite Ho, Hout, init_nodes_same_out.
    case_decide as Hd; [by destruct Hd|done].
  - intros [= <- <-].
    destruct (cleanup_same_out (to (edges_ !!! uv_idx)) (install edges_ uv_idx g1))
      as [Hl Ho].
    split.
    + rewrite Hl. unfold install. simpl. rewrite length_alter. congruence.
    + intros t. rewrite Ho. unfold install. simpl.
      rewrite list_lookup_total_alter.
      destruct (decide (t = from (edges_ !!! uv_idx))) as [->|Hne].
      * rewrite !decide_True by (split; [done|lia]). simpl.
        by rewrite Hout, init_nodes_same_out.
      * rewrite !decide_False by (by intros [? ?]).
        by rewrite Hout, init_nodes_same_out.
Qed.

Lemma add_edge_active (uv_idx : nat) (g g' : DifferenceLogicGraph)
    (neg_cycle : list nat) (e : nat) :
  add_edge edges_ uv_idx g = Ok (neg_cycle, g') →
  active g' e ↔ active g e ∨ (neg_cycle = [] ∧ e = uv_idx).
Proof.
  intros Hadd. destruct (add_edge_frame _ _ _ _ Hadd) as [Hlen Hout].
  unfold active. split.
  - intros (s & Hs & He). rewrite Hout in He.
    case_decide as Hd.
    + destruct Hd as [Hnil _]. apply elem_of_app in He as [He|He].
      * left. exists s. split; [by eapply outgoing_lt|done].
      * right. by apply list_elem_of_singleton in He.
    + left. exists s. split; [by eapply outgoing_lt|done].
  - intros [(s & Hs & He)|[Hnil ->]].
    + exists s. split; [lia|]. rewrite Hout.
      case_decide; [apply elem_of_app; by left|done].
    + exists (from (edges_ !!! uv_idx)). split; [lia|].
      rewrite Hout, decide_True by done. apply elem_of_app. right.
      apply list_elem_of_here.
Qed.


End Frame.


Section Walks.
Variable edges_ : list Edge.
Variable pot : nat → Z.


End Walks.

Section More.
Context {PQ : PriorityQueue} {PQL : PriorityQueueLaws PQ}.
Variable edges_ : list Edge.



(** X6. [reset] after [add_edge] on a graph at quiescence, with a cycle
    or without, leaves a graph that is empty and at quiescence, with the
    node records, the changed list and the queue entries of a new graph. *)
Theorem reset_after_add_edge
    (uv_idx : nat) (g g' : DifferenceLogicGraph) (neg_cycle : list nat) :
  quiescent edges_ g = true → uv_idx < length edges_ →
  add_edge edges_ uv_idx g = Ok (neg_cycle, g') →
  quiescent edges_ (reset g') = true ∧ empty (reset g') = true ∧
  nodes_ (reset g') = nodes_ (new_graph (PQ := PQ)) ∧
  changed_ (reset g') = changed_ (new_graph (PQ := PQ)) ∧
  pq_items (gamma_ (reset g')) = pq_items (gamma_ (new_graph (PQ := PQ))).
Proof.
  intros Hq Huv Hadd.
  destruct (add_edge_contract edges_ uv_idx g Hq Huv)
    as (cyc & g2 & Hadd' & Hclean & _).
  rewrite Hadd in Hadd'. injection Hadd' as <- <-.
  pose proof Hclean as Hc.
  apply scratch_clean_spec in Hc as (Hitems & Hch & _).
  unfold scratch_clean in Hclean. rewrite !andb_true_iff in Hclean.
  destruct Hclean as [[Htop Hchanged] _].
  split_and!; simpl; try done.
  - unfold quiescent, wf_graph, feasible, active_defined, scratch_clean,
      all_outgoing. simpl. by rewrite Htop, Hchanged.
  - by rewrite Hitems, pq_new_items.
Qed.

(** X5. On any graph, [add_edge] of a loop (u -> u, w) with w < 0 returns
    the cycle of that one edge and changes no outgoing list. *)
Theorem negative_loop_refused
    (uv_idx : nat) (g : DifferenceLogicGraph) (u : nat) (w : Z) (l : literal_t) :
  edges_ !! uv_idx = Some {| from := u; to := u; weight := w; lit := l |} →
  (w < 0)%Z →
  ∃ g', add_edge edges_ uv_idx g = Ok ([uv_idx], g') ∧
        ∀ t, outgoing (nodes_ g' !!! t) = outgoing (nodes_ g !!! t).
Proof.
  intros Hedge Hw.
  assert (edges_ !!! uv_idx = {| from := u; to := u; weight := w; lit := l |})
    as Huv by by apply list_lookup_total_correct.
  pose proof (init_nodes_length edges_ uv_idx g) as Hlen0.
  rewrite Huv in Hlen0. simpl in Hlen0.
  set (g0 := start_edge edges_ uv_idx g).
  assert (nodes_ g0
          = alter (set_last_edge uv_idx) u
              (alter (set_gamma w) u (init_nodes edges_ uv_idx (nodes_ g))))
    as Hg0.
  { unfold g0, start_edge. cbv zeta. rewrite Huv. simpl.
    replace (_ + w - _)%Z with w by lia.
    by destruct (Z.ltb_spec w 0); [|lia]. }
  assert (gamma (nodes_ g0 !!! u) = w ∧ last_edge (nodes_ g0 !!! u) = uv_idx)
    as [Hgam Hlast].
  { rewrite Hg0, !list_lookup_total_alter, !length_alter.
    rewrite !decide_True by (split; [done|lia]). done. }
  assert (detect edges_ (work g0) u g0 = Ok g0) as Hdet.
  { destruct (work g0); simpl; destruct (pq_top _); try done;
      rewrite Hgam; by destruct (Z.eqb_spec w 0); [lia|]. }
  eexists. split.
  - unfold add_edge. cbv zeta. fold g0. rewrite Huv. simpl.
    rewrite Hdet. simpl. rewrite Hgam.
    destruct (Z.ltb_spec w 0); [|lia].
    rewrite Hlast, Huv. simpl.
    assert (∀ fuel, gather_cycle edges_ fuel (nodes_ g0) u u [uv_idx]
                    = Ok [uv_idx]) as ->.
    { intros fuel. destruct fuel; simpl; by rewrite Nat.eqb_refl. }
    simpl. reflexivity.
  - intros t. rewrite (cleanup_keeps outgoing) by done.
    rewrite Hg0, !(alter_keeps outgoing) by done.
    by apply (init_nodes_keeps edges_ uv_idx g outgoing).
Qed.

End More.


(** ** The names of the vertices *)


Lemma new_propagator_wf_verts : wf_verts new_propagator.
Proof. intros name i. simpl. by rewrite lookup_empty, lookup_nil. Qed.

Lemma map_vert_wf name p :
  wf_verts p →
  wf_verts (map_vert name p).2 ∧
  vert_map_ (map_vert name p).2 !! (map_vert name p).1 = Some name ∧
  ∃ new, vert_map_ (map_vert name p).2 = vert_map_ p ++ new ∧
         (new = [] ∨ new = [name]).
Proof.
  intros Hwf. unfold map_vert.
  destruct (vert_map_inv_ p !! name) as [id|] eqn:Hinv; simpl.
  { split_and!; [done|by apply Hwf|]. exists []. rewrite app_nil_r. auto. }
  split_and!; [|by rewrite lookup_app_r, Nat.sub_diag by lia|eauto].
  intros name' i. simpl.
  destruct (decide (name = name')) as [<-|Hne].
  - rewrite lookup_insert_eq. split.
    + intros [= <-]. by rewrite lookup_app_r, Nat.sub_diag by lia.
    + intros Hi. f_equal. destruct (decide (i < length (vert_map_ p))) as [Hlt|Hge].
      * rewrite lookup_app_l in Hi by done. apply Hwf in Hi. congruence.
      * apply lookup_lt_Some in Hi. rewrite length_app in Hi. simpl in Hi. lia.
  - rewrite lookup_insert_ne by done. split.
    + intros Hi%Hwf. rewrite lookup_app_l; [done|]. by eapply lookup_lt_Some.
    + intros Hi. apply Hwf.
      destruct (decide (i < length (vert_map_ p))) as [Hlt|Hge].
      * by rewrite lookup_app_l in Hi.
      * rewrite lookup_app_r in Hi by lia.
        destruct (i - length (vert_map_ p)) as [|k]; simpl in Hi; [|done].
        congruence.
Qed.

(** X7. [map_vert] interns a name: the id it returns names the vertex in
    [vert_map_], the tables stay inverse to each other, asking again for
    the name gives the same id and changes nothing, the ids of the
    earlier names stay, and no other name gets the id. *)
Theorem map_vert_interns (name : string) (p : DifferenceLogicPropagator) :
  wf_verts p →
  let id := (map_vert name p).1 in
  let p' := (map_vert name p).2 in
  wf_verts p' ∧
  vert_map_ p' !! id = Some name ∧
  map_vert name p' = (id, p') ∧
  (∀ i n, vert_map_ p !! i = Some n → vert_map_ p' !! i = Some n) ∧
  (∀ name', (map_vert name' p').1 = id ↔ name' = name).
Proof.
  intros Hwf id p'.
  destruct (map_vert_wf name p Hwf) as (Hwf' & Hid & new & Hnew & _).
  fold id p' in Hwf', Hid, Hnew.
  assert (vert_map_inv_ p' !! name = Some id) as Hinv by by apply Hwf'.
  split_and!; [done|done| | |].
  - unfold map_vert. by rewrite Hinv.
  - intros i n Hi. rewrite Hnew. by apply lookup_app_l_Some.
  - intros name'. split; [|intros ->; unfold map_vert; by rewrite Hinv].
    intros Hid'.
    destruct (map_vert_wf name' p' Hwf') as (_ & Hlook & new' & Hnew' & _).
    rewrite Hid', Hnew' in Hlook.
    rewrite lookup_app_l in Hlook by (by eapply lookup_lt_Some).
    congruence.
Qed.

(** ** The edge table that [init] builds *)

Section InitEdges.
Context {MM : UnorderedMultimap}.


Lemma add_edge_atom_table_of done atom p :
  table_of done p → table_of (done ++ [atom]) (add_edge_atom atom p).
Proof.
  intros (Hwf & Hwatch & Hlen & Hdec & Hnames). unfold add_edge_atom.
  destruct (map_vert_wf (atom_u atom) p Hwf) as (Hwf1 & Hu & new1 & Hnew1 & Hn1).
  destruct (map_vert (atom_u atom) p) as [u_id p1] eqn:E1. simpl in *.
  destruct (map_vert_wf (atom_v atom) p1 Hwf1) as (Hwf2 & Hv & new2 & Hnew2 & Hn2).
  pose proof (map_vert_tables (atom_u atom) p) as [_ He1].
  pose proof (map_vert_tables (atom_v atom) p1) as [_ He2].
  assert (watches_ (map_vert (atom_u atom) p).2 = watches_ p) as Hw1.
  { unfold map_vert. by destruct (vert_map_inv_ p !! _). }
  assert (watches_ (map_vert (atom_v atom) p1).2 = watches_ p1) as Hw2.
  { unfold map_vert. by destruct (vert_map_inv_ p1 !! _). }
  rewrite E1 in He1, Hw1.
  destruct (map_vert (atom_v atom) p1) as [v_id p2] eqn:E2. simpl in *.
  rewrite He2, He1. split_and!; simpl.
  - done.
  - by rewrite Hw2, Hw1, Hwatch, fmap_app.
  - rewrite !length_app. simpl. lia.
  - intros i a Hi. apply lookup_app_Some in Hi as [Hi|[Hge Hi]].
    + destruct (Hdec i a Hi) as (e & He & Hl & Hwt & Hfrom & Hto).
      exists e. split_and!; [by apply lookup_app_l_Some|done|done|..];
        rewrite Hnew2, Hnew1; by do 2 apply lookup_app_l_Some.
    + apply list_lookup_singleton_Some in Hi as [Hi <-].
      assert (i = length (edges_ p)) as -> by lia.
      eexists. split; [by rewrite lookup_app_r, Nat.sub_diag by lia|].
      simpl. split_and!; [done|by destruct (atom_guard atom)| |done].
      rewrite Hnew2. by apply lookup_app_l_Some.
  - intros name. rewrite Hnew2, Hnew1, !elem_of_app.
    intros [[Hold|Hin]|Hin].
    + destruct (Hnames name Hold) as (a & Ha & Hor).
      exists a. split; [apply elem_of_app; by left|done].
    + destruct Hn1 as [->| ->]; [by apply elem_of_nil in Hin|].
      apply list_elem_of_singleton in Hin as ->.
      exists atom. split; [|by left]. apply elem_of_app. right.
      apply list_elem_of_here.
    + destruct Hn2 as [->| ->]; [by apply elem_of_nil in Hin|].
      apply list_elem_of_singleton in Hin as ->.
      exists atom. split; [|by right]. apply elem_of_app. right.
      apply list_elem_of_here.
Qed.

Lemma init_snoc atoms atom p :
  init (atoms ++ [atom]) p
  = if String.eqb (atom_term atom) "diff"
    then add_edge_atom atom (init atoms p) else init atoms p.
Proof. unfold init. by rewrite fold_left_app. Qed.

Lemma init_table_of atoms :
  table_of (diff_atoms atoms) (init atoms new_propagator).
Proof.
  induction atoms as [|atom atoms IH] using rev_ind.
  - split_and!; [apply new_propagator_wf_verts|done|done|done|].
    by intros name ?%elem_of_nil.
  - rewrite init_snoc. unfold diff_atoms in *. rewrite filter_app.
    destruct (String.eqb_spec (atom_term atom) "diff") as [Hd|Hd].
    + rewrite filter_cons_True, filter_nil by done.
      by apply add_edge_atom_table_of.
    + rewrite filter_cons_False, filter_nil, app_nil_r by done. done.
Qed.

Lemma wf_verts_NoDup p : wf_verts p → NoDup (vert_map_ p).
Proof.
  intros Hwf. apply NoDup_alt. intros i j name Hi Hj.
  apply Hwf in Hi, Hj. congruence.
Qed.

(** X8. [init] registers the atoms of term [diff] and no other, in their
    order: the i-th of them is the edge of index i, with the literal of
    the atom, the number of its guard (negated under a minus sign) as
    weight, and ends that [vert_map_] names as the atom does; the
    literals are watched in the same order. *)
Theorem init_registers_diff_atoms (atoms : list TheoryAtom) :
  let p := init atoms new_propagator in
  length (edges_ p) = length (diff_atoms atoms) ∧
  watches_ p = atom_literal <$> diff_atoms atoms ∧
  ∀ i a, diff_atoms atoms !! i = Some a →
    ∃ e, edges_ p !! i = Some e ∧
         lit e = atom_literal a ∧ weight e = guard_weight (atom_guard a) ∧
         vert_map_ p !! from e = Some (atom_u a) ∧
         vert_map_ p !! to e = Some (atom_v a).
Proof.
  intros p. destruct (init_table_of atoms) as (_ & Hw & Hlen & Hdec & _). done.
Qed.

(** X9. After [init] no name is twice in [vert_map_], [vert_map_inv_] is
    its inverse, both ends of every edge are vertices of [vert_map_], and
    the vertices are the names that the registered atoms use. *)
Theorem init_names_vertices (atoms : list TheoryAtom) :
  let p := init atoms new_propagator in
  NoDup (vert_map_ p) ∧
  (∀ name i, vert_map_inv_ p !! name = Some i ↔ vert_map_ p !! i = Some name) ∧
  (∀ e, e ∈ edges_ p →
        from e < length (vert_map_ p) ∧ to e < length (vert_map_ p)) ∧
  (∀ name, name ∈ vert_map_ p ↔
           ∃ a, a ∈ diff_atoms atoms ∧ (name = atom_u a ∨ name = atom_v a)).
Proof.
  intros p.
  destruct (init_table_of atoms) as (Hwf & _ & Hlen & Hdec & Hnames).
  fold p in Hwf, Hlen, Hdec, Hnames.
  split_and!; [by apply wf_verts_NoDup|done|..].
  - intros e [i Hi]%list_elem_of_lookup.
    destruct (lookup_lt_is_Some_2 (diff_atoms atoms) i) as [a Ha].
    { rewrite <- Hlen. by eapply lookup_lt_Some. }
    destruct (Hdec i a Ha) as (e' & He' & _ & _ & Hfrom & Hto).
    assert (e' = e) as -> by congruence.
    split; by eapply lookup_lt_Some.
  - intros name. split; [apply Hnames|].
    intros (a & [i Ha]%list_elem_of_lookup & Hor).
    destruct (Hdec i a Ha) as (e & _ & _ & _ & Hfrom & Hto).
    destruct Hor as [->| ->]; by eapply list_elem_of_lookup_2.
Qed.

End InitEdges.

(** ** The propagator and its graph *)

Section Sync.
Context {PQ : PriorityQueue}.
Variable p : DifferenceLogicPropagator.
Variable ctl_add_clause ctl_propagate : list literal_t → bool.

Local Abbreviation edges_of := (add_edges_of p ctl_add_clause ctl_propagate).
Local Abbreviation loop := (check_loop p ctl_add_clause ctl_propagate).
Local Abbreviation check := (check_consistency p ctl_add_clause ctl_propagate).
Local Abbreviation run := (propagate p ctl_add_clause ctl_propagate).


Lemma add_edges_of_active it : ∀ st st',
  edges_of it st = inl st' →
  edge_trail st' = edge_trail st ∧ propagated st' = propagated st ∧
  ∀ e, active (dl_graph st') e ↔ active (dl_graph st) e ∨ e ∈ it.
Proof.
  induction it as [|eid it IH]; intros st st'; simpl.
  - intros [= <-]. split_and!; [done..|]. intros e. split; [by left|].
    by intros [?|?%elem_of_nil].
  - destruct (add_edge (edges_ p) eid (dl_graph st)) as [[cyc g]| |] eqn:Hadd;
      [|done..].
    destruct cyc as [|c cyc]; [|by destruct (negb _ || negb _)].
    intros Hrest. destruct (IH _ _ Hrest) as (Ht & Hp & Hact).
    split_and!; [done..|]. intros e. rewrite Hact. simpl.
    rewrite (add_edge_active (edges_ p) _ _ _ _ e Hadd), elem_of_cons.
    intuition.
Qed.

Lemma add_edges_of_stops it : ∀ st o,
  edges_of it st = inr o →
  edge_trail (outcome_state o) = edge_trail st ∧
  propagated (outcome_state o) = propagated st ∧
  ∃ eid g, eid ∈ it ∧
    match o with
    | Consistent _ => False
    | Conflict clause st' | MustNotHappen clause st' =>
      ∃ neg_cycle, add_edge (edges_ p) eid g = Ok (neg_cycle, dl_graph st') ∧
                   neg_cycle ≠ [] ∧ clause = conflict_clause p neg_cycle
    | Failed _ =>
      add_edge (edges_ p) eid g = AssertFail ∨
      add_edge (edges_ p) eid g = Diverge
    end.
Proof.
  induction it as [|eid it IH]; intros st o; simpl; [done|].
  destruct (add_edge (edges_ p) eid (dl_graph st)) as [[cyc g]| |] eqn:Hadd.
  - destruct cyc as [|c cyc].
    + intros Hrest. destruct (IH _ _ Hrest) as (Ht & Hp & eid' & g' & Hin & Ho).
      split_and!; [done..|]. exists eid', g'. split; [by right|done].
    + destruct (negb _ || negb _); intros [= <-]; simpl;
        (split_and!; [done..|]); exists eid, (dl_graph st);
        (split; [by left|]); by exists (c :: cyc).
  - intros [= <-]. simpl. split_and!; [done..|].
    exists eid, (dl_graph st). split; [by left|by left].
  - intros [= <-]. simpl. split_and!; [done..|].
    exists eid, (dl_graph st). split; [by left|by right].
Qed.

Lemma check_loop_outcome fuel : ∀ st,
  length (edge_trail st) - propagated st ≤ fuel →
  match loop fuel st with
  | Consistent st' =>
    edge_trail st' = edge_trail st ∧
    propagated st' = Nat.max (propagated st) (length (edge_trail st)) ∧
    ∀ e, active (dl_graph st') e ↔
         active (dl_graph st) e ∨
         ∃ i, propagated st ≤ i < length (edge_trail st) ∧
              e ∈ edges_for (edge_trail st !!! i) (lit_to_edges_ p)
  | o =>
    edge_trail (outcome_state o) = edge_trail st ∧
    propagated st ≤ propagated (outcome_state o) ∧
    ∃ eid g, culprit p (outcome_state o) eid ∧
      match o with
      | Conflict clause st' | MustNotHappen clause st' =>
        ∃ neg_cycle, add_edge (edges_ p) eid g = Ok (neg_cycle, dl_graph st') ∧
                     neg_cycle ≠ [] ∧ clause = conflict_clause p neg_cycle
      | _ =>
        add_edge (edges_ p) eid g = AssertFail ∨
        add_edge (edges_ p) eid g = Diverge
      end
  end.
Proof.
  induction fuel as [|fuel IH]; intros st Hfuel.
  - simpl. destruct (Nat.ltb_spec (propagated st) (length (edge_trail st)));
      [lia|].
    split_and!; [done|lia|]. intros e. split; [by left|].
    intros [?|(i & ? & _)]; [done|lia].
  - simpl. destruct (Nat.ltb_spec (propagated st) (length (edge_trail st)))
      as [Hlt|Hge].
    2:{ split_and!; [done|lia|]. intros e. split; [by left|].
        intros [?|(i & ? & _)]; [done|lia]. }
    set (l := edge_trail st !!! propagated st).
    destruct (edges_of (edges_for l (lit_to_edges_ p)) st) as [st1|o] eqn:Hstep.
    + apply add_edges_of_active in Hstep as (Ht & Hp & Hact).
      set (st2 := {| edge_trail := edge_trail st1; dl_graph := dl_graph st1;
                     propagated := S (propagated st1) |}).
      specialize (IH st2). simpl in IH. rewrite Ht, Hp in IH.
      specialize (IH ltac:(lia)).
      destruct (loop fuel st2) as [st'|c st'|c st'|st'].
      * destruct IH as (Ht' & Hp' & Hact'). split_and!; [done|lia|].
        intros e. rewrite Hact', Hact. split.
        -- intros [[?|Hin]|(i & Hi & Hin)]; [by left|right..].
           ++ exists (propagated st). split; [lia|done].
           ++ exists i. split; [lia|done].
        -- intros [?|(i & Hi & Hin)]; [by left; left|].
           destruct (decide (i = propagated st)) as [->|Hne].
           ++ left. by right.
           ++ right. exists i. split; [lia|done].
      * destruct IH as (Ht' & Hp' & Hc). split_and!; [done|simpl in *; lia|done].
      * destruct IH as (Ht' & Hp' & Hc). split_and!; [done|simpl in *; lia|done].
      * destruct IH as (Ht' & Hp' & Hc). split_and!; [done|simpl in *; lia|done].
    + apply add_edges_of_stops in Hstep as (Ht & Hp & eid & g & Hin & Ho).
      destruct o as [st'|c st'|c st'|st']; [done|..]; simpl in *;
        (split_and!; [done|lia|]); exists eid, g;
        (split; [|done]); unfold culprit; rewrite Ht, Hp; done.
Qed.

(** X10. When [check_consistency] returns true, the trail is as it was,
    the cursor is at its end, and the active edges are those of before
    and the edges of the literals from the old cursor on. *)
Theorem consistent_adds_trail_edges (st st' : DLState) :
  check st = Consistent st' →
  edge_trail st' = edge_trail st ∧
  propagated st' = Nat.max (propagated st) (length (edge_trail st)) ∧
  ∀ e, active (dl_graph st') e ↔
       active (dl_graph st) e ∨
       ∃ i, propagated st ≤ i < length (edge_trail st) ∧
            e ∈ edges_for (edge_trail st !!! i) (lit_to_edges_ p).
Proof.
  intros Hc. pose proof (check_loop_outcome _ st (Nat.le_refl _)) as Ho.
  unfold check_consistency in Hc. by rewrite Hc in Ho.
Qed.

(** X11. When [check_consistency] hands a clause to the host, the trail
    is as it was and the cursor is not moved past the literal in work:
    the clause negates a cycle that [add_edge] returned for an edge of the
    literal under the cursor. *)
Theorem conflict_keeps_cursor
    (st st' : DLState) (clause : list literal_t) :
  check st = Conflict clause st' ∨ check st = MustNotHappen clause st' →
  edge_trail st' = edge_trail st ∧
  propagated st ≤ propagated st' < length (edge_trail st) ∧
  ∃ eid g neg_cycle,
    eid ∈ edges_for (edge_trail st !!! propagated st') (lit_to_edges_ p) ∧
    add_edge (edges_ p) eid g = Ok (neg_cycle, dl_graph st') ∧
    neg_cycle ≠ [] ∧
    clause = map (λ e, (- lit (edges_ p !!! e))%Z) neg_cycle.
Proof.
  intros Hc. pose proof (check_loop_outcome _ st (Nat.le_refl _)) as Ho.
  unfold check_consistency in Hc.
  destruct Hc as [Hc|Hc]; rewrite Hc in Ho; simpl in Ho;
    destruct Ho as (Ht & Hp & eid & g & [Hlt Hin] & cyc & Hadd & Hne & ->);
    rewrite Ht in Hlt, Hin; (split_and!; [done|done|done|]);
    by exists eid, g, cyc.
Qed.

Lemma new_state_synced : synced p new_state.
Proof.
  intros e. split.
  - intros (s & Hs & _). simpl in Hs. lia.
  - intros (i & Hi & _). simpl in Hi. lia.
Qed.

(** X12. [propagate] that ends without conflict keeps the graph in step
    with the trail: if the active edges were the edges of the literals
    before the cursor, they are so afterwards, the changes are appended
    to the trail and the cursor is at its end. *)
Theorem propagate_keeps_synced
    (changes : list literal_t) (st st' : DLState) :
  synced p st → propagated st ≤ length (edge_trail st) →
  run changes st = Consistent st' →
  synced p st' ∧
  edge_trail st' = edge_trail st ++ changes ∧
  propagated st' = length (edge_trail st').
Proof.
  intros Hsync Hle Hrun. unfold propagate, check_consistency in Hrun.
  set (st0 := {| edge_trail := edge_trail st ++ changes;
                 dl_graph := dl_graph st; propagated := propagated st |}) in *.
  pose proof (check_loop_outcome _ st0 (Nat.le_refl _)) as Ho.
  rewrite Hrun in Ho. simpl in Ho. destruct Ho as (Ht & Hp & Hact).
  rewrite length_app in Hp.
  split_and!; [|done|rewrite Ht, length_app; lia].
  intros e. rewrite Hact, (Hsync e), Ht, Hp. split.
  - intros [(i & Hi & Hin)|(i & Hi & Hin)].
    + exists i. split; [lia|]. by rewrite lookup_total_app_l by lia.
    + exists i. split; [rewrite length_app in Hi; lia|done].
  - intros (i & Hi & Hin).
    destruct (decide (i < propagated st)) as [Hlt|Hge].
    + left. exists i. split; [done|]. by rewrite lookup_total_app_l in Hin by lia.
    + right. exists i. split; [rewrite length_app; lia|done].
Qed.

(** X13. [undo] of the changes that [propagate] was called with, however
    that call ended, restores the trail of before, sets the cursor to 0
    and empties the graph, which is in step with the trail again. *)
Theorem undo_restores (changes : list literal_t) (st : DLState) :
  let st' := undo changes (outcome_state (run changes st)) in
  edge_trail st' = edge_trail st ∧
  propagated st' = 0 ∧
  empty (dl_graph st') = true ∧
  synced p st'.
Proof.
  intros st'. unfold st', undo. simpl.
  destruct (check_loop_trail p ctl_add_clause ctl_propagate
              (length (edge_trail st ++ changes) - propagated st)
              {| edge_trail := edge_trail st ++ changes;
                 dl_graph := dl_graph st; propagated := propagated st |})
    as [Ht _].
  unfold propagate, check_consistency. simpl in *. rewrite Ht.
  split_and!; [|done|done|].
  - rewrite length_app, Nat.add_sub. by rewrite take_app_length.
  - intros e. split.
    + intros (s & Hs & _). simpl in Hs. lia.
    + intros (i & Hi & _). simpl in Hi. lia.
Qed.

End Sync.

(** ** The assignment that is printed *)

Lemma elem_of_assignment {PQ : PriorityQueue} p (st : DLState) name x :
  (name, x) ∈ assignment p st ↔
  ∃ idx, vert_map_ p !! idx = Some name ∧
         node_value_defined (dl_graph st) idx = true ∧
         x = node_value (dl_graph st) idx.
Proof.
  unfold assignment. rewrite list_elem_of_omap. split.
  - intros ([idx name'] & Hin & Hf).
    apply elem_of_lookup_imap in Hin as (i & n & [= -> ->] & Hi).
    destruct (node_value_defined _ _) eqn:Hd; [|done].
    injection Hf as <- <-. eauto.
  - intros (idx & Hi & Hd & ->). exists (idx, name). split.
    + apply elem_of_lookup_imap. eauto.
    + by rewrite Hd.
Qed.

Lemma assignment_sublist {PQ : PriorityQueue} (g : DifferenceLogicGraph)
    (names : list string) : ∀ k,
  (omap (λ '(idx, name),
           if node_value_defined g idx
           then Some (name, node_value g idx) else None)
        (imap (λ i name, (k + i, name)) names)).*1 `sublist_of` names.
Proof.
  induction names as [|name names IH]; intros k; [done|].
  rewrite imap_cons. simpl.
  rewrite (imap_ext _ (λ i name, (S k + i, name))) by (intros ? ? _; simpl; f_equal; lia).
  destruct (node_value_defined g (k + 0)); simpl.
  - apply sublist_skip. exact (IH (S k)).
  - apply sublist_cons. exact (IH (S k)).
Qed.

Section Assignment.
Context {MM : UnorderedMultimap}.
Context {PQ : PriorityQueue} {PQL : PriorityQueueLaws PQ}.

(** X14. What [print_assignment] prints for a graph at quiescence in which
    every vertex has a node record (the code reads [nodes_[idx]]
    unchecked): no name is printed twice, and for every registered atom
    [&diff { u - v } <= k] whose edge is active both u and v are printed,
    with values x and y such that x - y <= k. *)
Theorem assignment_satisfies_atoms
    (atoms : list TheoryAtom) (st : DLState) :
  let p := init atoms new_propagator in
  quiescent (edges_ p) (dl_graph st) = true →
  length (vert_map_ p) ≤ length (nodes_ (dl_graph st)) →
  NoDup (assignment p st).*1 ∧
  ∀ i a, diff_atoms atoms !! i = Some a → active (dl_graph st) i →
    ∃ x y, (atom_u a, x) ∈ assignment p st ∧
           (atom_v a, y) ∈ assignment p st ∧
           (x - y <= guard_weight (atom_guard a))%Z.
Proof.
  intros p Hq _.
  destruct (init_table_of atoms) as (Hwf & _ & _ & Hdec & _).
  fold p in Hwf, Hdec.
  destruct (quiescent_facts _ _ Hq) as (Hgwf & _ & Hfe & Hde).
  split.
  - apply (sublist_NoDup _ (vert_map_ p)); [by apply wf_verts_NoDup|].
    exact (assignment_sublist (dl_graph st) (vert_map_ p) 0).
  - intros i a Ha (s & _ & Hs).
    destruct (Hdec i a Ha) as (e & He & _ & Hw & Hfrom & Hto).
    apply list_lookup_total_correct in He.
    specialize (Hfe s i Hs). destruct (Hde s i Hs) as [Hdu Hdv].
    unfold reduced_weight in Hfe. rewrite He in Hfe, Hdu, Hdv.
    exists (node_value (dl_graph st) (from e)), (node_value (dl_graph st) (to e)).
    split_and!.
    + apply elem_of_assignment. exists (from e). split_and!; [done| |done].
      unfold node_value_defined. by apply negb_true_iff, Z.eqb_neq.
    + apply elem_of_assignment. exists (to e). split_and!; [done| |done].
      unfold node_value_defined. by apply negb_true_iff, Z.eqb_neq.
    + unfold node_value. lia.
Qed.

End Assignment.

(** ** The command line *)


(** X15. [main] splits its arguments at the first [--]: the files it
    loads are the arguments before it, none of which is [--], and the
    options of the solver are the arguments after it; without [--] every
    argument is a file and there is no option. *)
Theorem split_args_spec (args : list string) :
  let files := (split_args args).1 in
  let options := (split_args args).2 in
  (dashes ∉ files) ∧
  ((dashes ∈ args ∧ args = files ++ dashes :: options) ∨
   ((dashes ∉ args) ∧ args = files ∧ options = [])).
Proof.
  induction args as [|arg args IH]; simpl.
  - split; [by intros ?%elem_of_nil|]. right.
    split_and!; [by intros ?%elem_of_nil|done..].
  - destruct (String.eqb_spec arg dashes) as [->|Hne]; simpl.
    + split; [by intros ?%elem_of_nil|]. left. split; [by left|done].
    + destruct IH as [Hf Hor]. split.
      * intros [?|?]%elem_of_cons; [done|by apply Hf].
      * destruct Hor as [[Hin Heq]|(Hnin & Heq & Hopt)].
        -- left. split; [by right|]. by rewrite <- Heq.
        -- right. split_and!; [|by rewrite <- Heq|done].
           intros [?|?]%elem_of_cons; [done|by apply Hnin].
Qed.

(** ** Scenarios for the properties above *)





(** S3 on the graph of S1: the loop is refused. *)
Lemma s3_negative_loop_refused :
  ∃ g', add_edge s3_edges 0 s1_graph = Ok ([0], g') ∧
        ∀ t, outgoing (nodes_ g' !!! t) = outgoing (nodes_ s1_graph !!! t).
Proof.
  apply (negative_loop_refused s3_edges 0 s1_graph 0 (-1)%Z 5%Z);
    reflexivity || lia.
Defined.

(** S1: after the refused edge, [reset] gives a new graph. *)
Lemma s1_reset_after_add_edge :
  quiescent s1_edges (reset s1_graph_after) = true ∧
  empty (reset s1_graph_after) = true ∧
  nodes_ (reset s1_graph_after) = nodes_ (new_graph (PQ := list_pq)) ∧
  changed_ (reset s1_graph_after) = changed_ (new_graph (PQ := list_pq)) ∧
  pq_items (gamma_ (reset s1_graph_after))
  = pq_items (gamma_ (new_graph (PQ := list_pq))).
Proof.
  apply (reset_after_add_edge (PQL := list_pq_laws)
           s1_edges 2 s1_graph s1_graph_after [2; 1; 0]);
    reflexivity || (simpl; lia).
Defined.

(** The first name gets the id 0. *)
Lemma first_name_interned :
  wf_verts (map_vert "a" new_propagator).2 ∧
  vert_map_ (map_vert "a" new_propagator).2
    !! (map_vert "a" new_propagator).1 = Some "a" ∧
  map_vert "a" (map_vert "a" new_propagator).2
  = ((map_vert "a" new_propagator).1, (map_vert "a" new_propagator).2) ∧
  (∀ i n, vert_map_ new_propagator !! i = Some n →
          vert_map_ (map_vert "a" new_propagator).2 !! i = Some n) ∧
  (∀ name', (map_vert name' (map_vert "a" new_propagator).2).1
            = (map_vert "a" new_propagator).1 ↔ name' = "a").
Proof.
  exact (map_vert_interns "a" new_propagator new_propagator_wf_verts).
Defined.

(** S1 through the propagator: the first two literals are consistent and
    their edges are the active edges. *)
Lemma s1_consistent_adds_trail_edges :
  edge_trail s1_state_two_after = edge_trail s1_state_two ∧
  propagated s1_state_two_after
  = Nat.max (propagated s1_state_two) (length (edge_trail s1_state_two)) ∧
  ∀ e, active (dl_graph s1_state_two_after) e ↔
       active (dl_graph s1_state_two) e ∨
       ∃ i, propagated s1_state_two ≤ i < length (edge_trail s1_state_two) ∧
            e ∈ edges_for (edge_trail s1_state_two !!! i)
                          (lit_to_edges_ s1_propagator).
Proof.
  apply (consistent_adds_trail_edges s1_propagator host_refuses host_refuses
           s1_state_two s1_state_two_after).
  vm_compute. reflexivity.
Defined.

(** S1 through the propagator: the third literal is refused and the
    cursor stays on it. *)
Lemma s1_conflict_keeps_cursor :
  edge_trail s1_state_three_after = edge_trail s1_state_three ∧
  propagated s1_state_three ≤ propagated s1_state_three_after
    < length (edge_trail s1_state_three) ∧
  ∃ eid g neg_cycle,
    eid ∈ edges_for (edge_trail s1_state_three
                       !!! propagated s1_state_three_after)
                    (lit_to_edges_ s1_propagator) ∧
    add_edge (edges_ s1_propagator) eid g
    = Ok (neg_cycle, dl_graph s1_state_three_after) ∧
    neg_cycle ≠ [] ∧
    [-7; -6; -5]%Z
    = map (λ e, (- lit (edges_ s1_propagator !!! e))%Z) neg_cycle.
Proof.
  apply (conflict_keeps_cursor s1_propagator host_refuses host_refuses
           s1_state_three s1_state_three_after [-7; -6; -5]%Z).
  left. vm_compute. reflexivity.
Defined.

(** S1 through the propagator: after the first two literals the graph is
    in step with the trail. *)
Lemma s1_propagate_keeps_synced :
  synced s1_propagator s1_state_two_after ∧
  edge_trail s1_state_two_after
  = edge_trail (new_state (PQ := list_pq)) ++ [5; 6]%Z ∧
  propagated s1_state_two_after = length (edge_trail s1_state_two_after).
Proof.
  apply (propagate_keeps_synced s1_propagator host_refuses host_refuses
           [5; 6]%Z new_state s1_state_two_after).
  - apply new_state_synced.
  - simpl. lia.
  - vm_compute. reflexivity.
Defined.

(** S2: x and y are printed, and their values satisfy both atoms. *)
Lemma s2_assignment_satisfies_atoms :
  NoDup (assignment s2_propagator s2_state).*1 ∧
  ∀ i a, diff_atoms s2_atoms !! i = Some a → active (dl_graph s2_state) i →
    ∃ x y, (atom_u a, x) ∈ assignment s2_propagator s2_state ∧
           (atom_v a, y) ∈ assignment s2_propagator s2_state ∧
           (x - y <= guard_weight (atom_guard a))%Z.
Proof.
  apply (assignment_satisfies_atoms (MM := gnu_multimap)
           (PQL := list_pq_laws) s2_atoms s2_state).
  - vm_compute. reflexivity.
  - vm_compute. lia.
Defined.

(** ** The propagator keeps the graph at quiescence *)

Section TableSound.
Context {MM : UnorderedMultimap} {MML : UnorderedMultimapLaws MM}.


End TableSound.

Section Sound.
Context {PQ : PriorityQueue} {PQL : PriorityQueueLaws PQ}.
Variable p : DifferenceLogicPropagator.
Variable ctl_add_clause ctl_propagate : list literal_t → bool.

Local Abbreviation edges_of := (add_edges_of p ctl_add_clause ctl_propagate).
Local Abbreviation loop := (check_loop p ctl_add_clause ctl_propagate).
Local Abbreviation run := (propagate p ctl_add_clause ctl_propagate).










End Sound.

